(** * Batched top-K recommendation: [BaseModel.recommend]

    A shallow embedding of [src/models/model.py]: the two per-batch
    rankers [_recommend_for_users] and [_recommend_for_movies] and the
    batch driver [recommend], together with the NumPy and pandas
    operations they call.  The abstract method [predict] is a parameter
    of the development; the feature tables are only handed on to it and
    are part of that parameter.  So is the NumPy that runs the code:
    NumPy 1 and NumPy 2 differ in the integers that the cast to [uint32]
    accepts.  Logging and the set-up of the progress bar are left out;
    the calls of [predict] and of [pbar.update] are recorded as events. *)

From Stdlib Require Import QArith Lqa.
From stdpp Require Import gmap list strings.
Local Close Scope Q_scope.

(** ** Cells of a [float64] array

    Both result matrices are created with [dtype='float64'].  A cell is
    NaN, an infinity, or a finite value; finite binary64 values are
    dyadic rationals, so they are embedded in [Q].  Nothing below rounds:
    scores are only compared, and the entity ids stored in the item
    matrix are integers below [2^32], which binary64 represents exactly. *)

Inductive float64 : Type :=
  | NaN
  | NegInf
  | Finite (q : Q)
  | PosInf.

Definition isnan (x : float64) : bool :=
  match x with NaN => true | _ => false end.

(** IEEE comparison [a > b]: false as soon as one side is NaN. *)
Definition f_gt (a b : float64) : bool :=
  match a, b with
  | NaN, _ | _, NaN => false
  | PosInf, PosInf => false
  | PosInf, _ => true
  | _, PosInf => false
  | NegInf, _ => false
  | Finite _, NegInf => true
  | Finite p, Finite q => negb (Qle_bool p q)
  end.

(** IEEE comparison [a == b]. *)
Definition f_eq (a b : float64) : bool :=
  match a, b with
  | PosInf, PosInf | NegInf, NegInf => true
  | Finite p, Finite q => Qeq_bool p q
  | _, _ => false
  end.

Definition f_ge (a b : float64) : bool := f_gt a b || f_eq a b.

(** An integer id stored in a [float64] array. *)
Definition of_int (z : Z) : float64 := Finite (inject_Z z).

(** The value that an integer has in a [uint32] array, when the array
    can be built: its residue modulo [2^32]. *)
Definition wrap32 (x : Z) : Z := (x mod 2 ^ 32)%Z.

(** ** Exceptions and observable effects *)

Inductive exn : Type :=
  | ValueError
  | KeyError
  | IndexError
  | AttributeError
  | AssertionError
  | OverflowError.

(** What a run does besides computing: the calls of [self.predict], with
    the pair array they receive, and the calls of [pbar.update]. *)
Inductive event : Type :=
  | Predict (user_movie_pair : list (Z * Z))
  | PbarUpdate (n : nat).

(** A computation yields the events it performed, then an exception or a
    value. *)
Definition M (A : Type) : Type := (list event * (exn + A))%type.

Definition ret {A} (a : A) : M A := ([], inr a).
Definition raise {A} (e : exn) : M A := ([], inl e).
Definition emit (ev : event) : M unit := ([ev], inr tt).

Definition bind {A B} (m : M A) (f : A → M B) : M B :=
  match m with
  | (t, inl e) => (t, inl e)
  | (t, inr a) => let '(t', r) := f a in (t ++ t', r)
  end.

Notation "x <- m ; k" := (bind m (λ x, k))
  (at level 20, m at level 100, k at level 200, only parsing).

Fixpoint foldM {A B} (f : B → A → M B) (l : list A) (b : B) : M B :=
  match l with
  | [] => ret b
  | x :: l' => b' <- f b x ; foldM f l' b'
  end.

(** ** The cast to [uint32]

    [np.array(..., dtype='uint32')] converts Python integers one by one.
    NumPy 1 (observed on 1.26) goes through a 64-bit C integer: an
    integer of [[-2^63, 2^64)] is accepted and wraps around modulo
    [2^32], any other raises OverflowError.  NumPy 2 raises
    OverflowError for every integer outside [[0, 2^32)]. *)
Inductive numpy : Type :=
  | NumPy1
  | NumPy2.

(** The integers that the cast accepts. *)
Definition fits (np : numpy) (x : Z) : Prop :=
  match np with
  | NumPy1 => (- 2 ^ 63 ≤ x < 2 ^ 64)%Z
  | NumPy2 => (0 ≤ x < 2 ^ 32)%Z
  end.

#[global] Instance fits_dec np x : Decision (fits np x).
Proof. destruct np; simpl; apply _. Defined.

(** The cast of one integer. *)
Definition uint32 (np : numpy) (x : Z) : M Z :=
  if decide (fits np x) then ret (wrap32 x) else raise OverflowError.

(** [np.array([[u, m] ...], dtype='uint32')] for the list of pairs that
    the comprehension builds. *)
Fixpoint np_array (np : numpy) (pairs : list (Z * Z)) : M (list (Z * Z)) :=
  match pairs with
  | [] => ret []
  | (u, m) :: pairs' =>
      u' <- uint32 np u ;
      m' <- uint32 np m ;
      rest <- np_array np pairs' ;
      ret ((u', m') :: rest)
  end.

(** ** Two-dimensional arrays *)

Record ndarray : Type := { ncols : nat; rows : list (list float64) }.

Definition shape (a : ndarray) : nat * nat := (length (rows a), ncols a).

(** [np.full([n, m], None, dtype='float64')]: every cell is NaN; a
    negative dimension is refused. *)
Definition np_full (n : nat) (m : Z) : M ndarray :=
  if (m <? 0)%Z then raise ValueError
  else ret {| ncols := Z.to_nat m;
              rows := replicate n (replicate (Z.to_nat m) NaN) |}.

(** [a[i, j] = v] for non-negative [i], [j]. *)
Definition setitem (a : ndarray) (i j : nat) (v : float64) : M ndarray :=
  match rows a !! i with
  | Some r =>
      if decide (j < ncols a)
      then ret {| ncols := ncols a; rows := <[i := <[j := v]> r]> (rows a) |}
      else raise IndexError
  | None => raise IndexError
  end.

(** [np.vstack((a, b))]. *)
Definition vstack (a b : ndarray) : M ndarray :=
  if decide (ncols a = ncols b)
  then ret {| ncols := ncols a; rows := rows a ++ rows b |}
  else raise ValueError.

(** ** The pair table *)

(** A row of [df_table].  [Index] is the label of the default RangeIndex,
    the position of the pair in the cross product; [dropna] keeps it.
    The id columns hold the ids after the cast to [uint32]. *)
Record row : Type :=
  { Index : nat; userId : Z; movieId : Z; predicted : float64 }.

(** [predicted.reshape((n_samples, 1))], [np.hstack] and [pd.DataFrame].
    The reshape needs one score per pair.  An empty comprehension makes
    [np.array] return a one-dimensional array of shape [(0,)], which
    [np.hstack] refuses to join with the [(0, 1)] column. *)
Definition hstack (user_movie_pair : list (Z * Z)) (predicted : list float64)
  : M (list row) :=
  if decide (length predicted = length user_movie_pair) then
    match user_movie_pair with
    | [] => raise ValueError
    | _ :: _ =>
        ret (imap (λ i x, {| Index := i; userId := x.1.1; movieId := x.1.2;
                             predicted := x.2 |})
               (zip user_movie_pair predicted))
    end
  else raise ValueError.

(** [df_table.dropna()]: only the score column can hold NaN. *)
Definition dropna (df : list row) : list row :=
  filter (λ r, isnan (predicted r) = false) df.

(** [a] is ranked before [b] by [rank(ascending=False, method='first')]:
    a greater score, or an equal score and an earlier row.  The frame is
    in [Index] order, so order of appearance is order of [Index]. *)
Definition outranks (a b : row) : bool :=
  f_gt (predicted a) (predicted b)
  || (f_eq (predicted a) (predicted b) && (Index a <? Index b)).

(** The rank of [r] within its group: one more than the number of rows of
    the group ranked before it. *)
Definition group_rank (key : row → Z) (df : list row) (r : row) : nat :=
  S (length (filter (λ a, key a = key r ∧ outranks a r = true) df)).

(** [df_table.groupby(key, as_index=False, sort=False)['predicted']
       .rank(ascending=False, method='first')], stored as column [rank]. *)
Definition rank_first (key : row → Z) (df : list row) : list (row * nat) :=
  map (λ r, (r, group_rank key df r)) df.

(** [{u: i for i, u in enumerate(ids)}]: a later occurrence of a key
    overwrites the earlier one. *)
Definition index_mapping (ids : list Z) : gmap Z nat :=
  foldl (λ d iu, <[iu.2 := iu.1]> d) ∅ (zip (seq 0 (length ids)) ids).

(** The body of the [itertuples] loop. *)
Definition write_row (mapping : gmap Z nat) (key item : row → Z)
    (acc : ndarray * ndarray) (t : row * nat) : M (ndarray * ndarray) :=
  match mapping !! key t.1 with
  | None => raise KeyError
  | Some index0 =>
      let index1_rec_items := t.2 - 1 in
      rec_items <- setitem acc.1 index0 index1_rec_items (of_int (item t.1)) ;
      rec_scores <- setitem acc.2 index0 index1_rec_items (predicted t.1) ;
      ret (rec_items, rec_scores)
  end.

(** ** The batch driver's helpers *)

Definition batch_num : nat := 100.

(** [math.ceil(n / d)]; the float division is exact enough for every
    length a list can have. *)
Definition ceil_div (n d : nat) : nat := (n + d - 1) `div` d.

(** [l[start:end]] for [0 <= start]. *)
Definition slice (l : list Z) (start end_ : nat) : list Z :=
  take (end_ - start) (drop start l).

Section Model.

(** The NumPy in use. *)
Variable np : numpy.

(** [self.predict], with the feature tables it is passed held fixed. *)
Variable predict : list (Z * Z) → list float64.

Definition call_predict (user_movie_pair : list (Z * Z)) : M (list float64) :=
  ([Predict user_movie_pair], inr (predict user_movie_pair)).

Definition _recommend_for_users (users movies : list Z) (maxsize : option Z)
  : M (ndarray * ndarray) :=
  user_movie_pair <- np_array np (m ← movies; u ← users; [(u, m)]) ;
  let user_index_mapping := index_mapping users in
  predicted <- call_predict user_movie_pair ;
  table <- hstack user_movie_pair predicted ;
  let df_table := dropna table in
  let maxsize := default (Z.of_nat (length movies)) maxsize in
  rec_items <- np_full (length users) maxsize ;
  rec_scores <- np_full (length users) maxsize ;
  match df_table with
  | [] => ret (rec_items, rec_scores)
  | _ :: _ =>
      let ranked := rank_first userId df_table in
      let df_table := filter (λ t, (Z.of_nat t.2 ≤ maxsize)%Z) ranked in
      foldM (write_row user_index_mapping userId movieId) df_table
        (rec_items, rec_scores)
  end.

Definition _recommend_for_movies (movies users : list Z) (maxsize : option Z)
  : M (ndarray * ndarray) :=
  user_movie_pair <- np_array np (u ← users; m ← movies; [(u, m)]) ;
  let movie_index_mapping := index_mapping movies in
  predicted <- call_predict user_movie_pair ;
  table <- hstack user_movie_pair predicted ;
  let df_table := dropna table in
  let maxsize := default (Z.of_nat (length users)) maxsize in
  rec_items <- np_full (length movies) maxsize ;
  rec_scores <- np_full (length movies) maxsize ;
  match df_table with
  | [] => ret (rec_items, rec_scores)
  | _ :: _ =>
      let ranked := rank_first movieId df_table in
      let df_table := filter (λ t, (Z.of_nat t.2 ≤ maxsize)%Z) ranked in
      foldM (write_row movie_index_mapping movieId userId) df_table
        (rec_items, rec_scores)
  end.

(** The [for i in range(math.ceil(num / batch_num))] loop, written once
    for both branches of [recommend]: [sub] ranks one batch.  The two
    accumulators [rec_items], [rec_scores] are [None] together. *)
Fixpoint batch_loop (sub : list Z → M (ndarray * ndarray))
    (ids : list Z) (num : nat) (range : list nat)
    (acc : option (ndarray * ndarray)) : M (option (ndarray * ndarray)) :=
  match range with
  | [] => ret acc
  | i :: range' =>
      let start := i * batch_num in
      let end_ := Nat.min ((i + 1) * batch_num) num in
      s <- sub (slice ids start end_) ;
      acc' <- match acc with
              | None => ret s
              | Some a =>
                  rec_items <- vstack a.1 s.1 ;
                  rec_scores <- vstack a.2 s.2 ;
                  ret (rec_items, rec_scores)
              end ;
      _ <- emit (PbarUpdate (end_ - start)) ;
      batch_loop sub ids num range' (Some acc')
  end.

(** The two assertions after the loop; [None.shape] does not exist. *)
Definition check_rows (acc : option (ndarray * ndarray)) (n : nat)
  : M (ndarray * ndarray) :=
  match acc with
  | None => raise AttributeError
  | Some a =>
      if decide (length (rows a.1) = n ∧ length (rows a.2) = n)
      then ret a else raise AssertionError
  end.

Definition recommend (recommended_type : string) (users movies : list Z)
    (maxsize : option Z) : M (ndarray * ndarray) :=
  if String.eqb recommended_type "movie" then
    let user_num := length users in
    acc <- batch_loop (λ b, _recommend_for_users b movies maxsize)
             users user_num (seq 0 (ceil_div user_num batch_num)) None ;
    check_rows acc (length users)
  else if String.eqb recommended_type "user" then
    let movie_num := length movies in
    acc <- batch_loop (λ b, _recommend_for_movies b users maxsize)
             movies movie_num (seq 0 (ceil_div movie_num batch_num)) None ;
    check_rows acc (length movies)
  else raise ValueError.

End Model.

(** * Vocabulary of the proofs and of the properties

    Definitions only: the computation shared by the two rankers, views of
    the arrays, the batches of [recommend], and the inputs of the examples. *)

(** ** One batch

    [_recommend_for_users] and [_recommend_for_movies] are the same
    computation up to the roles of the two id columns; [rank_batch] is
    that computation from the call of [predict] on, so that lemmas are
    proved once for both. *)

Definition table_of (user_movie_pair : list (Z * Z)) (predicted : list float64)
  : list row :=
  imap (λ i x, {| Index := i; userId := x.1.1; movieId := x.1.2;
                  predicted := x.2 |})
    (zip user_movie_pair predicted).

Definition ranked_of (key : row → Z) (df : list row) (maxsize : Z)
  : list (row * nat) :=
  filter (λ t, (Z.of_nat t.2 ≤ maxsize)%Z) (rank_first key df).

Definition rank_batch (predict : list (Z * Z) → list float64)
    (user_movie_pair : list (Z * Z)) (key item : row → Z)
    (sources : list Z) (n_targets : nat) (maxsize : option Z)
  : M (ndarray * ndarray) :=
  predicted <- call_predict predict user_movie_pair ;
  table <- hstack user_movie_pair predicted ;
  let df_table := dropna table in
  let maxsize := default (Z.of_nat n_targets) maxsize in
  rec_items <- np_full (length sources) maxsize ;
  rec_scores <- np_full (length sources) maxsize ;
  match df_table with
  | [] => ret (rec_items, rec_scores)
  | _ :: _ =>
      let ranked := rank_first key df_table in
      let df_table := filter (λ t, (Z.of_nat t.2 ≤ maxsize)%Z) ranked in
      foldM (write_row (index_mapping sources) key item) df_table
        (rec_items, rec_scores)
  end.

(** The scored rows of a batch: its table without the rows whose score
    is NaN. *)
Definition scored (predict : list (Z * Z) → list float64)
    (pairs : list (Z * Z)) : list row :=
  dropna (table_of pairs (predict pairs)).

(** ** Cells and shapes *)

Definition cell (a : ndarray) (i j : nat) : option float64 :=
  rows a !! i ≫= (λ r, r !! j).

(** Every row is as wide as the array says. *)
Definition wf (a : ndarray) : Prop :=
  Forall (λ r, length r = ncols a) (rows a).

Definition full (n m : nat) : ndarray :=
  {| ncols := m; rows := replicate n (replicate m NaN) |}.

(** ** The write loop *)

(** Cell [(i, j)] of both arrays holds what the loop body writes for the
    ranked row [t]. *)
Definition written (mapping : gmap Z nat) (key item : row → Z)
    (t : row * nat) (acc : ndarray * ndarray) (i j : nat) : Prop :=
  mapping !! key t.1 = Some i ∧ t.2 - 1 = j ∧
  cell acc.1 i j = Some (of_int (item t.1)) ∧
  cell acc.2 i j = Some (predicted t.1).

(** The state of the two arrays after the rows [done] were written. *)
Record filled (mapping : gmap Z nat) (key item : row → Z) (n m : nat)
    (done : list (row * nat)) (acc : ndarray * ndarray) : Prop :=
  { filled_wf1 : wf acc.1;
    filled_wf2 : wf acc.2;
    filled_shape1 : shape acc.1 = (n, m);
    filled_shape2 : shape acc.2 = (n, m);
    filled_sound : ∀ i j, i < n → j < m →
      (cell acc.1 i j = Some NaN ∧ cell acc.2 i j = Some NaN) ∨
      (∃ t, t ∈ done ∧ written mapping key item t acc i j);
    filled_complete : ∀ t, t ∈ done →
      ∃ i, mapping !! key t.1 = Some i ∧ i < n ∧ t.2 - 1 < m ∧
           cell acc.2 i (t.2 - 1) ≠ Some NaN }.

(** ** Rows of the result *)

(** A score row lists its values by descending score, and no sentinel
    precedes a value. *)
Definition row_ranked (rs : list float64) : Prop :=
  ∀ j k y, j < k → rs !! k = Some y → y ≠ NaN →
    ∃ x, rs !! j = Some x ∧ x ≠ NaN ∧ f_ge x y = true.

(** An item row and a score row hold the sentinel in the same places. *)
Definition same_sentinels (ri rs : list float64) : Prop :=
  length ri = length rs ∧ ∀ j, ri !! j = Some NaN ↔ rs !! j = Some NaN.

(** ** Batches and directions *)

(** The slice that iteration [i] of the loop ranks. *)
Definition chunk (ids : list Z) (i : nat) : list Z :=
  slice ids (i * batch_num) (Nat.min ((i + 1) * batch_num) (length ids)).

Definition chunks (ids : list Z) : list (list Z) :=
  chunk ids <$> seq 0 (ceil_div (length ids) batch_num).

(** The accumulators after the first [q] batches: row [i] of each is
    row [i mod batch_num] of what batch [i div batch_num] returned. *)
Definition stacked (sub : list Z → M (ndarray * ndarray))
    (ev : list Z → list event) (ids : list Z) (w : nat)
    (q : nat) (acc : option (ndarray * ndarray)) : Prop :=
  match acc with
  | None => q = 0
  | Some a =>
      0 < q ∧
      shape a.1 = (Nat.min (q * batch_num) (length ids), w) ∧
      shape a.2 = (Nat.min (q * batch_num) (length ids), w) ∧
      ∀ i, i < Nat.min (q * batch_num) (length ids) →
        ∃ s, sub (chunk ids (i `div` batch_num))
             = (ev (chunk ids (i `div` batch_num)), inr s) ∧
             rows a.1 !! i = rows s.1 !! (i `mod` batch_num) ∧
             rows a.2 !! i = rows s.2 !! (i `mod` batch_num)
  end.

Definition loop_trace (ev : list Z → list event) (ids : list Z)
    (range : list nat) : list event :=
  i ← range; ev (chunk ids i) ++ [PbarUpdate (length (chunk ids i))].

Definition valid_type (recommended_type : string) : Prop :=
  recommended_type = "movie" ∨ recommended_type = "user".

(** The entities recommendations are made for, and the candidates. *)
Definition source_ids (ty : string) (users movies : list Z) : list Z :=
  if String.eqb ty "movie" then users else movies.

Definition target_ids (ty : string) (users movies : list Z) : list Z :=
  if String.eqb ty "movie" then movies else users.

Definition key_of (ty : string) : row → Z :=
  if String.eqb ty "movie" then userId else movieId.

Definition item_of (ty : string) : row → Z :=
  if String.eqb ty "movie" then movieId else userId.

(** The pairs of a batch as the comprehension lists them, before the
    cast. *)
Definition raw_pairs (ty : string) (batch targets : list Z) : list (Z * Z) :=
  if String.eqb ty "movie"
  then m ← targets; u ← batch; [(u, m)]
  else u ← targets; m ← batch; [(u, m)].

(** The cast accepts every id of the pairs of a batch. *)
Definition castable (np : numpy) (ty : string) (batch targets : list Z)
  : Prop :=
  Forall (λ p, fits np p.1 ∧ fits np p.2) (raw_pairs ty batch targets).

(** The ids of a list are within the range of [uint32]. *)
Definition in_range (ids : list Z) : Prop :=
  Forall (λ u, 0 ≤ u < 2 ^ 32)%Z ids.

(** The pair array a batch hands to [predict]. *)
Definition pairs_of (ty : string) (batch targets : list Z) : list (Z * Z) :=
  if String.eqb ty "movie"
  then m ← targets; u ← batch; [(wrap32 u, wrap32 m)]
  else u ← targets; m ← batch; [(wrap32 u, wrap32 m)].

Definition maxsize_or_default (maxsize : option Z) (targets : list Z) : Z :=
  default (Z.of_nat (length targets)) maxsize.

(** What [recommend] runs on one batch of sources. *)
Definition rank_sub (np : numpy) (predict : list (Z * Z) → list float64)
    (ty : string) (targets : list Z) (maxsize : option Z)
    (batch : list Z) : M (ndarray * ndarray) :=
  if String.eqb ty "movie"
  then _recommend_for_users np predict batch targets maxsize
  else _recommend_for_movies np predict batch targets maxsize.

Definition batch_events (ty : string) (targets batch : list Z) : list event :=
  [Predict (pairs_of ty batch targets)].

(** The value in cell [(i, j)] of the result is target [x] with score
    [y]: some scored pair of source [u] in [batch], ranked [j + 1] among
    the scored pairs of [u], has that target and that score. *)
Definition recommended (predict : list (Z * Z) → list float64) (ty : string)
    (batch targets : list Z) (u : Z) (j : nat) (x y : float64) : Prop :=
  ∃ r, r ∈ scored predict (pairs_of ty batch targets) ∧
       key_of ty r = u ∧
       group_rank (key_of ty) (scored predict (pairs_of ty batch targets)) r
       = S j ∧
       x = of_int (item_of ty r) ∧ y = predicted r.

(** The pair of a source and a target: the user comes first. *)
Definition pair_of (ty : string) (source target : Z) : Z * Z :=
  if String.eqb ty "movie" then (source, target) else (target, source).

(** ** Scores that are not finite *)

Definition is_finite (x : float64) : bool :=
  match x with Finite _ => true | _ => false end.

(** The statement that a score that is not finite counts as missing: the
    score matrix of a returned result would hold finite values and the
    sentinel only. *)
Definition non_finite_excluded (np : numpy)
    (predict : list (Z * Z) → list float64)
    (ty : string) (users movies : list Z) (maxsize : option Z) : Prop :=
  ∀ tr items scores i j y,
    recommend np predict ty users movies maxsize = (tr, inr (items, scores)) →
    cell scores i j = Some y → y = NaN ∨ is_finite y = true.

Definition inf_predict (pairs : list (Z * Z)) : list float64 :=
  map (λ _, PosInf) pairs.

(** ** Ids beyond the range of [uint32] *)


(** ** Inputs and results of the examples *)

Definition frac (n : Z) (d : positive) : float64 := Finite (Qmake n d).

(** Scores of [(1,10) (2,10) (1,20) (2,20) (1,30) (2,30)], in the order of
    the cross product built for users [1; 2] and movies [10; 20; 30]. *)
Definition scenario_predict (pairs : list (Z * Z)) : list float64 :=
  map (λ um,
         match um with
         | (1, 10) => frac 9 10 | (1, 20) => frac 5 10 | (1, 30) => NaN
         | (2, 10) => frac 1 10 | (2, 20) => frac 1 10 | (2, 30) => frac 8 10
         | _ => NaN
         end%Z) pairs.

(** The results of the scenario. *)
Definition scenario_items : ndarray :=
  {| ncols := 2; rows := [[of_int 10; of_int 20]; [of_int 30; of_int 10]] |}.

Definition scenario_scores : ndarray :=
  {| ncols := 2; rows := [[frac 9 10; frac 5 10]; [frac 8 10; frac 1 10]] |}.

Definition scenario_trace : list event :=
  [Predict [(1, 10); (2, 10); (1, 20); (2, 20); (1, 30); (2, 30)]%Z;
   PbarUpdate 2].

(** The tie of the scenario, with [maxsize] unset: for user 2 the movies
    10 and 20 are both scored 0.1, and 10 comes first. *)
Definition tie_first : row :=
  {| Index := 1; userId := 2; movieId := 10; predicted := frac 1 10 |}.

Definition tie_second : row :=
  {| Index := 3; userId := 2; movieId := 20; predicted := frac 1 10 |}.


Definition half_predict (pairs : list (Z * Z)) : list float64 :=
  map (λ um, match um with (_, 10) => frac 1 2 | _ => frac 1 4 end%Z) pairs.

(** The rows of the two accumulators of the loop; there are none while
    the accumulators are [None]. *)
Definition rows_of (acc : option (ndarray * ndarray))
  : list (list float64) * list (list float64) :=
  match acc with
  | None => ([], [])
  | Some a => (rows a.1, rows a.2)
  end.

(** Three batches: users 1 to 250 and the movie 7, every user scored by
    its own id, so that a row shows the user it belongs to. *)
Definition crowd : list Z := Z.of_nat <$> seq 1 250.

Definition crowd_predict (pairs : list (Z * Z)) : list float64 :=
  map (λ um, frac um.1 1) pairs.

Definition crowd_items : ndarray :=
  {| ncols := 1; rows := replicate 250 [of_int 7] |}.

Definition crowd_scores : ndarray :=
  {| ncols := 1; rows := (λ u, [frac u 1]) <$> crowd |}.

Definition crowd_trace : list event :=
  b ← [take 100 crowd; take 100 (drop 100 crowd); drop 200 crowd];
  [Predict ((λ u, (u, 7%Z)) <$> b); PbarUpdate (length b)].

(** ** Failures, calls and directions *)


(** The pair arrays of the calls of [predict] in a trace, in order. *)
Definition predict_calls (tr : list event) : list (list (Z * Z)) :=
  omap (λ e, match e with Predict p => Some p | PbarUpdate _ => None end) tr.

(** The total of the progress updates in a trace. *)
Definition progress (tr : list event) : nat :=
  sum_list_with (λ e, match e with PbarUpdate k => k | Predict _ => 0 end) tr.

(** A row with the two id columns exchanged. *)
Definition swap_row (r : row) : row :=
  {| Index := Index r; userId := movieId r; movieId := userId r;
     predicted := predicted r |}.

(** A call of [predict] with every pair reversed. *)
Definition swap_event (e : event) : event :=
  match e with
  | Predict p => Predict (prod_swap <$> p)
  | PbarUpdate k => PbarUpdate k
  end.

Definition swap_trace {A} (m : M A) : M A := (swap_event <$> m.1, m.2).

(** [predict] reading its pairs reversed. *)
Definition swapped (predict : list (Z * Z) → list float64)
  : list (Z * Z) → list float64 :=
  λ p, predict (prod_swap <$> p).

(** * Lemmas *)

(** The scenario of the specification: users 1 and 2, movies 10, 20 and
    30, [maxsize] 2.  User 1 gets movies 10 and 20; user 2 gets 30, then
    10, which ties with 20 and comes first. *)
Example scenario_result :
  recommend NumPy2 scenario_predict "movie" [1; 2]%Z [10; 20; 30]%Z (Some 2%Z)
  = (scenario_trace, inr (scenario_items, scenario_scores)).
Proof. vm_compute. reflexivity. Qed.

(** ** The order of scores *)

Ltac float_cases :=
  repeat match goal with
    | x : float64 |- _ => destruct x
    end;
  simpl in *; try done;
  rewrite ?negb_true_iff, ?negb_false_iff, ?andb_true_iff, ?orb_true_iff,
    <- ?not_true_iff_false, ?Qle_bool_iff, ?Qeq_bool_iff in *;
  try done.

Lemma f_gt_irrefl a : f_gt a a = false.
Proof.
  destruct a; simpl; try done.
  rewrite negb_false_iff, Qle_bool_iff. lra.
Qed.

Lemma f_gt_trans a b c : f_gt a b = true → f_gt b c = true → f_gt a c = true.
Proof. float_cases; lra. Qed.

Lemma f_gt_eq_trans a b c : f_gt a b = true → f_eq b c = true → f_gt a c = true.
Proof. float_cases; lra. Qed.

Lemma f_eq_gt_trans a b c : f_eq a b = true → f_gt b c = true → f_gt a c = true.
Proof. float_cases; lra. Qed.

Lemma f_eq_trans a b c : f_eq a b = true → f_eq b c = true → f_eq a c = true.
Proof. float_cases; lra. Qed.

Lemma f_eq_sym a b : f_eq a b = true → f_eq b a = true.
Proof. float_cases; lra. Qed.

Lemma f_total a b :
  isnan a = false → isnan b = false →
  f_gt a b = true ∨ f_eq a b = true ∨ f_gt b a = true.
Proof.
  float_cases; intros _ _; try tauto.
  match goal with
  | |- ¬ (?p <= ?q)%Q ∨ _ => destruct (Q_dec p q) as [[H|H]|H]
  end.
  - right; right; lra.
  - left; lra.
  - right; left; lra.
Qed.

(** ** The ranking order on rows *)

Lemma outranks_irrefl a : outranks a a = false.
Proof.
  unfold outranks. rewrite f_gt_irrefl. simpl.
  rewrite andb_false_iff. right. apply Nat.ltb_irrefl.
Qed.

Lemma outranks_trans a b c :
  outranks a b = true → outranks b c = true → outranks a c = true.
Proof.
  unfold outranks. rewrite !orb_true_iff, !andb_true_iff, !Nat.ltb_lt.
  intros [Hab|[Hab Iab]] [Hbc|[Hbc Ibc]].
  - left. eauto using f_gt_trans.
  - left. eauto using f_gt_eq_trans.
  - left. eauto using f_eq_gt_trans.
  - right. split; [eauto using f_eq_trans | lia].
Qed.

Lemma outranks_total a b :
  isnan (predicted a) = false → isnan (predicted b) = false →
  Index a ≠ Index b →
  outranks a b = true ∨ outranks b a = true.
Proof.
  intros Ha Hb Hi. unfold outranks.
  rewrite !orb_true_iff, !andb_true_iff, !Nat.ltb_lt.
  destruct (f_total _ _ Ha Hb) as [H|[H|H]]; [by left; left| |by right; left].
  destruct (decide (Index a < Index b)); [left; right; done|].
  right; right. split; [by apply f_eq_sym | lia].
Qed.

Lemma outranks_score a b :
  outranks a b = true → f_ge (predicted a) (predicted b) = true.
Proof.
  unfold outranks, f_ge. rewrite !orb_true_iff, andb_true_iff. tauto.
Qed.

(** ** Ranks within a group *)

Lemma NoDup_fmap_inj_on {A B} (f : A → B) (l : list A) x y :
  NoDup (f <$> l) → x ∈ l → y ∈ l → f x = f y → x = y.
Proof.
  induction l as [|z l IH]; [by rewrite elem_of_nil|].
  rewrite fmap_cons, NoDup_cons, !elem_of_cons.
  intros [Hz Hl] [->|Hx] [->|Hy] Hf; auto.
  - destruct Hz. rewrite Hf. by apply list_elem_of_fmap_2.
  - destruct Hz. rewrite <- Hf. by apply list_elem_of_fmap_2.
Qed.

Section Rank.

Variable key : row → Z.
Variable df : list row.
Hypothesis df_scored : ∀ r, r ∈ df → isnan (predicted r) = false.
Hypothesis df_index : NoDup (Index <$> df).

Lemma group_rank_pos r : 1 ≤ group_rank key df r.
Proof. unfold group_rank. lia. Qed.

(** A row ranked before another of its group has the smaller rank. *)
Lemma group_rank_mono a b :
  a ∈ df → key a = key b → outranks a b = true →
  group_rank key df a < group_rank key df b.
Proof.
  intros Ha Hk Hab. unfold group_rank. apply -> Nat.succ_lt_mono.
  rewrite <- (list_filter_filter_l (λ x, key x = key a ∧ outranks x a = true)
                (λ x, key x = key b ∧ outranks x b = true)).
  - apply length_filter_lt with a.
    + by apply list_elem_of_filter.
    + rewrite outranks_irrefl. by intros [_ ?].
  - intros x [Hx Hxa]. split; [congruence | eauto using outranks_trans].
Qed.

Lemma group_rank_ge a b :
  a ∈ df → b ∈ df → key a = key b →
  group_rank key df a < group_rank key df b →
  f_ge (predicted a) (predicted b) = true.
Proof.
  intros Ha Hb Hk Hlt.
  destruct (decide (Index a = Index b)) as [Hi|Hi].
  { assert (a = b) as -> by eauto using NoDup_fmap_inj_on. lia. }
  destruct (outranks_total a b) as [H|H]; auto.
  - by apply outranks_score.
  - apply group_rank_mono in H; auto. lia.
Qed.

Lemma group_rank_inj a b :
  a ∈ df → b ∈ df → key a = key b →
  group_rank key df a = group_rank key df b → a = b.
Proof.
  intros Ha Hb Hk Heq.
  destruct (decide (Index a = Index b)) as [Hi|Hi];
    [eauto using NoDup_fmap_inj_on|].
  destruct (outranks_total a b) as [H|H]; auto;
    apply group_rank_mono in H; auto; lia.
Qed.

(** Ties go to the row that comes first. *)
Lemma group_rank_first a b :
  a ∈ df → key a = key b →
  f_eq (predicted a) (predicted b) = true → Index a < Index b →
  group_rank key df a < group_rank key df b.
Proof.
  intros Ha Hk Heq Hi. apply group_rank_mono; auto.
  unfold outranks. rewrite Heq. simpl.
  apply orb_true_iff. right. by apply Nat.ltb_lt.
Qed.

Lemma group_rank_le_size r :
  r ∈ df → group_rank key df r ≤ length (filter (λ a, key a = key r) df).
Proof.
  intros Hr. unfold group_rank.
  rewrite <- (list_filter_filter_l (λ x, key x = key r ∧ outranks x r = true)
                (λ x, key x = key r)) by tauto.
  apply length_filter_lt with r.
  - by apply list_elem_of_filter.
  - rewrite outranks_irrefl. by intros [_ ?].
Qed.

(** The ranks of a group are exactly [1 .. N]: every rank below the rank
    of a row is the rank of some row of the same group. *)
Lemma group_rank_below r j :
  r ∈ df → 1 ≤ j ≤ group_rank key df r →
  ∃ r', r' ∈ df ∧ key r' = key r ∧ group_rank key df r' = j.
Proof.
  intros Hr Hj.
  set (G := filter (λ a, key a = key r) df).
  assert (HG : ∀ a, a ∈ G ↔ a ∈ df ∧ key a = key r).
  { intros a. unfold G. rewrite list_elem_of_filter. tauto. }
  assert (Hnd : NoDup (group_rank key df <$> G)).
  { apply NoDup_fmap_2_strong.
    - intros a b [Ha Hka]%HG [Hb Hkb]%HG. apply group_rank_inj; congruence.
    - apply NoDup_filter. by eapply NoDup_fmap_1. }
  assert (Hperm : group_rank key df <$> G ≡ₚ seq 1 (length G)).
  { apply submseteq_length_Permutation.
    - apply NoDup_submseteq; [done|].
      intros x (a & -> & [Ha Hka]%HG)%list_elem_of_fmap.
      apply elem_of_seq. pose proof (group_rank_pos a).
      pose proof (group_rank_le_size a Ha) as Hle.
      rewrite Hka in Hle. fold G in Hle. lia.
    - by rewrite length_seq, length_fmap. }
  assert (Hin : j ∈ group_rank key df <$> G).
  { rewrite Hperm. apply elem_of_seq.
    pose proof (group_rank_le_size r Hr). fold G in H. lia. }
  apply list_elem_of_fmap in Hin as (r' & -> & [? ?]%HG). eauto.
Qed.

End Rank.

(** ** The index dictionary *)

Lemma index_mapping_snoc ids u :
  index_mapping (ids ++ [u]) = <[u := length ids]> (index_mapping ids).
Proof.
  unfold index_mapping.
  rewrite length_app, Nat.add_1_r, seq_S. simpl.
  rewrite zip_with_app by (by rewrite length_seq).
  by rewrite foldl_app.
Qed.

(** A key is mapped to the position of its last occurrence. *)
Lemma index_mapping_lookup ids k i :
  index_mapping ids !! k = Some i ↔
  ids !! i = Some k ∧ ∀ j, i < j → ids !! j ≠ Some k.
Proof.
  revert i. induction ids as [|u ids IH] using rev_ind; intros i.
  { unfold index_mapping. simpl. rewrite lookup_empty. split; [done|].
    by intros [? _]. }
  rewrite index_mapping_snoc, lookup_insert.
  destruct (decide (u = k)) as [->|Hne].
  - split.
    + intros [= <-]. split.
      * by rewrite lookup_app_r, Nat.sub_diag by lia.
      * intros j Hj. rewrite lookup_ge_None_2; [done|].
        rewrite length_app. simpl. lia.
    + intros [Hi Hlast]. f_equal.
      apply lookup_lt_Some in Hi as Hlt. rewrite length_app in Hlt. simpl in Hlt.
      destruct (decide (i = length ids)) as [|Hn]; [done|].
      destruct (Hlast (length ids)); [lia|].
      by rewrite lookup_app_r, Nat.sub_diag by lia.
  - rewrite IH. split.
    + intros [Hi Hlast]. split; [by apply lookup_app_l_Some|].
      intros j Hj Hjk. apply lookup_app_Some in Hjk as [Hjk|[_ Hjk]].
      * by apply (Hlast j).
      * apply list_lookup_singleton_Some in Hjk as [_ ?]. done.
    + intros [Hi Hlast]. apply lookup_app_Some in Hi as [Hi|[_ Hi]].
      * split; [done|]. intros j Hj Hjk. apply (Hlast j Hj).
        by apply lookup_app_l_Some.
      * apply list_lookup_singleton_Some in Hi as [_ ?]. done.
Qed.

Lemma index_mapping_is_Some ids k :
  k ∈ ids → is_Some (index_mapping ids !! k).
Proof.
  induction ids as [|u ids IH] using rev_ind; [by rewrite elem_of_nil|].
  rewrite index_mapping_snoc, lookup_insert, elem_of_app, list_elem_of_singleton.
  destruct (decide (u = k)); [by eauto|]. intros [?|?]; [auto|congruence].
Qed.

Lemma index_mapping_lt ids k i :
  index_mapping ids !! k = Some i → i < length ids.
Proof. intros [H _]%index_mapping_lookup. by eapply lookup_lt_Some. Qed.

(** ** Computations that return *)

Lemma bind_inr {A B} (m : M A) (f : A → M B) t b :
  bind m f = (t, inr b) →
  ∃ t1 a t2, m = (t1, inr a) ∧ f a = (t2, inr b) ∧ t = t1 ++ t2.
Proof.
  unfold bind. destruct m as [t1 [e|a]]; [done|].
  destruct (f a) as [t2 r] eqn:Hf. intros [= <- ->]. eauto 6.
Qed.

Lemma bind_ok {A B} (m : M A) (f : A → M B) t1 a :
  m = (t1, inr a) → bind m f = (t1 ++ (f a).1, (f a).2).
Proof. intros ->. unfold bind. by destruct (f a). Qed.

Lemma cell_Some a i j v :
  cell a i j = Some v ↔ ∃ r, rows a !! i = Some r ∧ r !! j = Some v.
Proof.
  unfold cell. destruct (rows a !! i) as [r|]; simpl.
  - split; [eauto|]. by intros (? & [= <-] & ?).
  - split; [done|]. by intros (? & ? & ?).
Qed.

Lemma np_full_inv n m t a :
  np_full n m = (t, inr a) →
  t = [] ∧ (0 ≤ m)%Z ∧
  a = {| ncols := Z.to_nat m; rows := replicate n (replicate (Z.to_nat m) NaN) |}.
Proof.
  unfold np_full. destruct (Z.ltb_spec m 0); [done|].
  intros [= <- <-]. auto.
Qed.

Lemma np_full_ok n m :
  (0 ≤ m)%Z →
  np_full n m =
  ([], inr {| ncols := Z.to_nat m;
              rows := replicate n (replicate (Z.to_nat m) NaN) |}).
Proof. unfold np_full. destruct (Z.ltb_spec m 0); [lia|done]. Qed.

Lemma full_wf n m : wf (full n m).
Proof.
  unfold wf, full. simpl. apply Forall_forall.
  intros r [-> _]%elem_of_replicate. apply length_replicate.
Qed.

Lemma full_shape n m : shape (full n m) = (n, m).
Proof. unfold shape, full. simpl. by rewrite length_replicate. Qed.

Lemma full_cell n m i j : i < n → j < m → cell (full n m) i j = Some NaN.
Proof.
  intros Hi Hj. unfold cell, full. simpl.
  rewrite lookup_replicate_2 by done. simpl. by apply lookup_replicate_2.
Qed.

Lemma setitem_inv a i j v t a' :
  setitem a i j v = (t, inr a') →
  t = [] ∧ ncols a' = ncols a ∧ length (rows a') = length (rows a) ∧
  i < length (rows a) ∧ j < ncols a ∧
  (wf a → wf a' ∧ cell a' i j = Some v) ∧
  (∀ i' j', i' ≠ i ∨ j' ≠ j → cell a' i' j' = cell a i' j').
Proof.
  unfold setitem. destruct (rows a !! i) as [r|] eqn:Hr; [|done].
  destruct (decide (j < ncols a)) as [Hj|]; [|done].
  intros [= <- <-]. simpl.
  apply lookup_lt_Some in Hr as Hi.
  split_and!; auto.
  - by rewrite length_insert.
  - intros Hwf. unfold wf in *. simpl.
    assert (length r = ncols a) as Hlen.
    { rewrite Forall_lookup in Hwf. eauto. }
    split.
    + apply Forall_insert; [done|]. by rewrite length_insert.
    + unfold cell. simpl. rewrite list_lookup_insert_eq by done. simpl.
      apply list_lookup_insert_eq. lia.
  - intros i' j' Hne. unfold cell. simpl.
    destruct (decide (i' = i)) as [->|Hi'].
    + rewrite list_lookup_insert_eq, Hr by done. simpl.
      apply list_lookup_insert_ne. destruct Hne; congruence.
    + by rewrite list_lookup_insert_ne.
Qed.

Lemma setitem_ok a i j v :
  i < length (rows a) → j < ncols a →
  ∃ a', setitem a i j v = ([], inr a').
Proof.
  intros [r Hr]%lookup_lt_is_Some Hj. unfold setitem. rewrite Hr.
  rewrite decide_True by done. eauto.
Qed.

(** ** The write loop *)

Section Write.

Variable mapping : gmap Z nat.
Variables key item : row → Z.
Variables n m : nat.

Lemma filled_full : filled mapping key item n m [] (full n m, full n m).
Proof.
  split; simpl; auto using full_wf, full_shape.
  - intros i j Hi Hj. left. by rewrite full_cell.
  - intros t. by rewrite elem_of_nil.
Qed.

Lemma write_row_filled done acc t tr acc' :
  filled mapping key item n m done acc → isnan (predicted t.1) = false →
  write_row mapping key item acc t = (tr, inr acc') →
  tr = [] ∧ filled mapping key item n m (done ++ [t]) acc'.
Proof.
  intros [Hw1 Hw2 Hs1 Hs2 Hsound Hcompl] Hnan. unfold write_row.
  destruct (mapping !! key t.1) as [i|] eqn:Hi; [|done].
  intros (t1 & a1 & t2 & H1 & (t3 & a2 & t4 & H2 & Hret & ->)%bind_inr & ->)
    %bind_inr.
  injection Hret as <- <-.
  apply setitem_inv in H1 as (-> & Hc1 & Hr1 & Hi1 & Hj1 & Hset1 & Hoth1).
  apply setitem_inv in H2 as (-> & Hc2 & Hr2 & Hi2 & Hj2 & Hset2 & Hoth2).
  destruct (Hset1 Hw1) as [Hw1' Hcell1]. destruct (Hset2 Hw2) as [Hw2' Hcell2].
  unfold shape in *. injection Hs1 as Hn1 Hm1. injection Hs2 as Hn2 Hm2.
  split; [done|]. split; simpl; auto.
  - unfold shape. congruence.
  - unfold shape. congruence.
  - intros i' j' Hi' Hj'.
    destruct (decide (i' = i ∧ j' = t.2 - 1)) as [[-> ->]|Hne].
    { right. exists t. split; [apply elem_of_app; right; by left|].
      by repeat split. }
    assert (i' ≠ i ∨ j' ≠ t.2 - 1) as Hne' by (clear -Hne; lia).
    rewrite (Hoth1 _ _ Hne'), (Hoth2 _ _ Hne').
    destruct (Hsound i' j' Hi' Hj') as [?|(t0 & Ht0 & Hk & Hj0 & Hx & Hy)];
      [by left|].
    right. exists t0. split; [apply elem_of_app; by left|].
    unfold written. simpl. by rewrite (Hoth1 _ _ Hne'), (Hoth2 _ _ Hne').
  - assert (cell a2 i (t.2 - 1) ≠ Some NaN) as Hnew.
    { rewrite Hcell2. intros [= Heq]. by rewrite Heq in Hnan. }
    intros t0 [Ht0|Ht0%list_elem_of_singleton]%elem_of_app; [|subst t0].
    + destruct (Hcompl t0 Ht0) as (i0 & Hk0 & Hi0 & Hj0 & Hc0).
      exists i0. split_and!; auto.
      destruct (decide (i0 = i ∧ t0.2 - 1 = t.2 - 1)) as [[-> ->]|Hne];
        [done|].
      rewrite Hoth2; [done|]. clear -Hne. lia.
    + exists i. split_and!; auto; lia.
Qed.

Lemma foldM_filled l done acc tr acc' :
  filled mapping key item n m done acc →
  (∀ t, t ∈ l → isnan (predicted t.1) = false) →
  foldM (write_row mapping key item) l acc = (tr, inr acc') →
  tr = [] ∧ filled mapping key item n m (done ++ l) acc'.
Proof.
  revert done acc tr. induction l as [|t l IH]; intros done acc tr Hf Hnan.
  { simpl. intros [= <- <-]. by rewrite app_nil_r. }
  simpl. intros (t1 & a1 & t2 & H1 & H2 & ->)%bind_inr.
  apply write_row_filled with (done := done) in H1 as [-> Hf1]; auto.
  2:{ apply Hnan. by left. }
  apply IH with (done := done ++ [t]) in H2 as [-> Hf2]; auto.
  2:{ intros t0 Ht0. apply Hnan. by right. }
  by rewrite <- app_assoc in Hf2.
Qed.

(** The loop raises nothing when every row has an entry in the
    dictionary and a rank within the width. *)
Lemma foldM_write_ok l acc :
  length (rows acc.1) = n → length (rows acc.2) = n →
  ncols acc.1 = m → ncols acc.2 = m →
  (∀ t, t ∈ l → ∃ i, mapping !! key t.1 = Some i ∧ i < n ∧ t.2 - 1 < m) →
  ∃ acc', foldM (write_row mapping key item) l acc = ([], inr acc').
Proof.
  revert acc. induction l as [|t l IH]; intros acc Hn1 Hn2 Hm1 Hm2 Hl.
  { simpl. eauto. }
  destruct (Hl t) as (i & Hi & Hlt & Hj); [by left|].
  destruct (setitem_ok acc.1 i (t.2 - 1) (of_int (item t.1)))
    as [a1 Ha1]; [lia..|].
  destruct (setitem_ok acc.2 i (t.2 - 1) (predicted t.1))
    as [a2 Ha2]; [lia..|].
  apply setitem_inv in Ha1 as Hi1. apply setitem_inv in Ha2 as Hi2.
  destruct (IH (a1, a2)) as [acc' Hacc']; simpl; try lia.
  { intros t0 Ht0. apply Hl. by right. }
  exists acc'. simpl. unfold write_row at 1. rewrite Hi.
  rewrite (bind_ok _ _ [] (a1, a2)); [by rewrite Hacc'|].
  rewrite (bind_ok _ _ [] a1) by done. simpl.
  by rewrite (bind_ok _ _ [] a2).
Qed.

End Write.

(** ** One batch *)

Lemma table_of_index pairs scores : NoDup (Index <$> table_of pairs scores).
Proof.
  apply NoDup_alt. intros i j x. unfold table_of.
  rewrite !list_lookup_fmap, !list_lookup_imap.
  destruct (zip pairs scores !! i); [|done].
  destruct (zip pairs scores !! j); [|done].
  simpl. congruence.
Qed.

Lemma dropna_index df : NoDup (Index <$> df) → NoDup (Index <$> dropna df).
Proof.
  intros Hnd. unfold dropna. apply NoDup_fmap_2_strong.
  - intros x y [_ Hx]%list_elem_of_filter [_ Hy]%list_elem_of_filter.
    by apply NoDup_fmap_inj_on with (l := df).
  - apply NoDup_filter. by eapply NoDup_fmap_1.
Qed.

Lemma dropna_scored df r : r ∈ dropna df → isnan (predicted r) = false.
Proof. unfold dropna. by intros [? _]%list_elem_of_filter. Qed.

Lemma elem_of_dropna df r :
  r ∈ dropna df ↔ r ∈ df ∧ predicted r ≠ NaN.
Proof.
  unfold dropna. rewrite list_elem_of_filter.
  destruct (predicted r); simpl; split; intros [? ?]; split; congruence.
Qed.

Lemma elem_of_ranked_of key df maxsize t :
  t ∈ ranked_of key df maxsize ↔
  t.1 ∈ df ∧ t.2 = group_rank key df t.1 ∧ (Z.of_nat t.2 ≤ maxsize)%Z.
Proof.
  unfold ranked_of, rank_first. rewrite list_elem_of_filter, list_elem_of_fmap.
  split.
  - intros [Hle (r & -> & Hr)]. auto.
  - intros (Hr & Hrk & Hle). split; [done|]. exists t.1. split; [|done].
    destruct t; simpl in *; congruence.
Qed.

Lemma hstack_inv pairs scores t df :
  hstack pairs scores = (t, inr df) →
  t = [] ∧ length scores = length pairs ∧ pairs ≠ [] ∧
  df = table_of pairs scores.
Proof.
  unfold hstack. destruct (decide _) as [Hlen|]; [|done].
  destruct pairs; [done|]. intros [= <- <-]. auto.
Qed.

Lemma hstack_ok pairs scores :
  length scores = length pairs → pairs ≠ [] →
  hstack pairs scores = ([], inr (table_of pairs scores)).
Proof.
  intros Hlen Hne. unfold hstack. rewrite decide_True by done.
  by destruct pairs.
Qed.

(** ** The cast *)

Lemma bind_ret_l {A B} (a : A) (f : A → M B) : bind (ret a) f = f a.
Proof. unfold bind, ret. by destruct (f a). Qed.

Lemma in_range_fits np x : (0 ≤ x < 2 ^ 32)%Z → fits np x.
Proof. destruct np; simpl; lia. Qed.

Lemma fits_NumPy2 x : fits NumPy2 x → wrap32 x = x.
Proof. simpl. unfold wrap32. intros. by apply Z.mod_small. Qed.

(** The array is built when the cast accepts every id, and then holds
    the ids modulo [2^32]; otherwise building it raises OverflowError. *)
Lemma np_array_spec np pairs :
  np_array np pairs
  = if decide (Forall (λ p, fits np p.1 ∧ fits np p.2) pairs)
    then ret ((λ p, (wrap32 p.1, wrap32 p.2)) <$> pairs)
    else raise OverflowError.
Proof.
  induction pairs as [|[u m] pairs IH]; [done|].
  cbn [np_array]. unfold uint32. rewrite IH. clear IH.
  destruct (decide (Forall _ ((u, m) :: pairs))) as [Hall|Hall].
  - apply Forall_cons in Hall as [[Hu Hm] Hp]. cbn [fst snd] in Hu, Hm.
    rewrite !decide_True by done. by rewrite !bind_ret_l.
  - destruct (decide (fits np u)) as [Hu|Hu]; [|done].
    destruct (decide (fits np m)) as [Hm|Hm]; [|done].
    destruct (decide (Forall _ pairs)) as [Hp|Hp]; [|done].
    destruct Hall. by constructor.
Qed.

Lemma wrap_raw_pairs ty batch targets :
  (λ p, (wrap32 p.1, wrap32 p.2)) <$> raw_pairs ty batch targets
  = pairs_of ty batch targets.
Proof.
  unfold raw_pairs, pairs_of.
  destruct (String.eqb ty "movie");
    induction targets as [|t targets IH]; try done;
    rewrite !bind_cons, fmap_app, IH; f_equal;
    clear IH; induction batch as [|b batch IH]; try done;
    rewrite !bind_cons, fmap_app, IH; done.
Qed.

Lemma length_raw_pairs ty batch targets :
  length (raw_pairs ty batch targets) = length (pairs_of ty batch targets).
Proof. by rewrite <- wrap_raw_pairs, length_fmap. Qed.

Lemma elem_of_raw_pairs ty batch targets p :
  valid_type ty →
  p ∈ raw_pairs ty batch targets ↔
  ∃ s t, s ∈ batch ∧ t ∈ targets ∧ p = pair_of ty s t.
Proof.
  intros [-> | ->]; unfold raw_pairs, pair_of; simpl; split.
  - intros (t & (s & Hxy%list_elem_of_singleton & Hs)%list_elem_of_bind & Ht)
      %list_elem_of_bind. eauto.
  - intros (s & t & Hs & Ht & ->). apply list_elem_of_bind. exists t.
    split; [|done]. apply list_elem_of_bind. exists s.
    split; [|done]. by apply list_elem_of_singleton.
  - intros (t & (s & Hxy%list_elem_of_singleton & Hs)%list_elem_of_bind & Ht)
      %list_elem_of_bind. eauto.
  - intros (s & t & Hs & Ht & ->). apply list_elem_of_bind. exists t.
    split; [|done]. apply list_elem_of_bind. exists s.
    split; [|done]. by apply list_elem_of_singleton.
Qed.

(** With a source and a target at hand, the cast accepts the pairs
    exactly when it accepts every source and every target. *)
Lemma castable_iff np ty batch targets :
  valid_type ty → batch ≠ [] → targets ≠ [] →
  castable np ty batch targets ↔
  Forall (fits np) batch ∧ Forall (fits np) targets.
Proof.
  intros Hty Hb Ht. unfold castable. rewrite !Forall_forall.
  destruct batch as [|s0 batch]; [done|].
  destruct targets as [|t0 targets]; [done|]. split.
  - intros Hall. split.
    + intros s Hs.
      destruct (Hall (pair_of ty s t0)) as [H1 H2].
      { apply elem_of_raw_pairs; [done|]. exists s, t0.
        split_and!; [done|left|done]. }
      destruct Hty as [-> | ->]; done.
    + intros t Htin.
      destruct (Hall (pair_of ty s0 t)) as [H1 H2].
      { apply elem_of_raw_pairs; [done|]. exists s0, t.
        split_and!; [left|done|done]. }
      destruct Hty as [-> | ->]; done.
  - intros [Hs Htg] p (s & t & Hsin & Htin & ->)%elem_of_raw_pairs; [|done].
    destruct Hty as [-> | ->]; simpl; auto.
Qed.

Lemma castable_in_range np ty batch targets :
  valid_type ty → in_range batch → in_range targets →
  castable np ty batch targets.
Proof.
  intros Hty Hb Ht. unfold castable, in_range in *.
  rewrite Forall_forall in Hb, Ht. apply Forall_forall.
  intros p (s & t & Hs & Htin & ->)%elem_of_raw_pairs; [|done].
  destruct Hty as [-> | ->]; simpl; split; apply in_range_fits; auto.
Qed.

Section Batch.

Variable predict : list (Z * Z) → list float64.
Context {np : numpy}.

Lemma _recommend_for_users_eq users movies maxsize :
  _recommend_for_users np predict users movies maxsize =
  (user_movie_pair <- np_array np (m ← movies; u ← users; [(u, m)]) ;
   rank_batch predict user_movie_pair userId movieId users (length movies)
     maxsize).
Proof. reflexivity. Qed.

Lemma _recommend_for_movies_eq movies users maxsize :
  _recommend_for_movies np predict movies users maxsize =
  (user_movie_pair <- np_array np (u ← users; m ← movies; [(u, m)]) ;
   rank_batch predict user_movie_pair movieId userId movies (length users)
     maxsize).
Proof. reflexivity. Qed.

Lemma rank_batch_inv pairs key item sources nt maxsize tr acc :
  rank_batch predict pairs key item sources nt maxsize = (tr, inr acc) →
  let mz := default (Z.of_nat nt) maxsize in
  tr = [Predict pairs] ∧ pairs ≠ [] ∧
  length (predict pairs) = length pairs ∧ (0 ≤ mz)%Z ∧
  filled (index_mapping sources) key item (length sources) (Z.to_nat mz)
    (ranked_of key (scored predict pairs) mz) acc.
Proof.
  unfold rank_batch, call_predict. cbv zeta.
  intros (t1 & sc & t2 & [= <- <-] & H & ->)%bind_inr.
  apply bind_inr in H as (t3 & df & t4 & Hh & H & ->).
  apply hstack_inv in Hh as (-> & Hlen & Hne & ->).
  apply bind_inr in H as (t5 & a1 & t6 & H1 & H & ->).
  apply np_full_inv in H1 as (-> & Hmz & ->).
  apply bind_inr in H as (t7 & a2 & t8 & H2 & H & ->).
  apply np_full_inv in H2 as (-> & _ & ->).
  fold (full (length sources) (Z.to_nat (default (Z.of_nat nt) maxsize))) in H.
  fold (scored predict pairs) in H. simpl.
  assert (t8 = [] ∧
          filled (index_mapping sources) key item (length sources)
            (Z.to_nat (default (Z.of_nat nt) maxsize))
            (ranked_of key (scored predict pairs) (default (Z.of_nat nt) maxsize)) acc)
    as [-> Hf]; [|done].
  destruct (scored predict pairs) as [|r df] eqn:Hdf.
  - injection H as <- <-. split; [done|]. apply filled_full.
  - rewrite <- Hdf in *. fold (ranked_of key (scored predict pairs)
      (default (Z.of_nat nt) maxsize)) in H.
    apply foldM_filled with (done := []) (n := length sources)
      (m := Z.to_nat (default (Z.of_nat nt) maxsize)) in H; auto.
    + apply filled_full.
    + intros t (Ht & _)%elem_of_ranked_of. by eapply dropna_scored.
Qed.

End Batch.

(** ** What a batch leaves in its two arrays *)

Lemma cell_row a i r j : rows a !! i = Some r → cell a i j = r !! j.
Proof. intros Hr. unfold cell. by rewrite Hr. Qed.

Lemma cell_lt a i j v :
  wf a → cell a i j = Some v → i < length (rows a) ∧ j < ncols a.
Proof.
  intros Hwf (r & Hr & Hv)%cell_Some. split; [by eapply lookup_lt_Some|].
  unfold wf in Hwf. rewrite Forall_lookup in Hwf. rewrite <- (Hwf _ _ Hr).
  by eapply lookup_lt_Some.
Qed.

Section Filled.

Variables key item : row → Z.
Variable sources : list Z.
Variable df : list row.
Variable mz : Z.
Variable acc : ndarray * ndarray.
Hypothesis df_scored : ∀ r, r ∈ df → isnan (predicted r) = false.
Hypothesis df_index : NoDup (Index <$> df).
Hypothesis acc_filled :
  filled (index_mapping sources) key item (length sources) (Z.to_nat mz)
    (ranked_of key df mz) acc.

Local Abbreviation is_written := (written (index_mapping sources) key item).

Lemma ranked_rank_pos t : t ∈ ranked_of key df mz → 1 ≤ t.2.
Proof. intros (_ & -> & _)%elem_of_ranked_of. apply group_rank_pos. Qed.

(** Two written rows that land in the same array row are of one group. *)
Lemma written_same_key t t' i :
  index_mapping sources !! key t = Some i →
  index_mapping sources !! key t' = Some i → key t = key t'.
Proof.
  intros [H _]%index_mapping_lookup [H' _]%index_mapping_lookup. congruence.
Qed.

(** Every ranked row within [maxsize] is in the arrays, at the row of
    its group and the column of its rank. *)
Lemma written_exact t :
  t ∈ ranked_of key df mz → ∃ i, is_written t acc i (t.2 - 1).
Proof.
  intros Ht.
  destruct (filled_complete _ _ _ _ _ _ _ acc_filled t Ht)
    as (i & Hi & Hlt & Hj & Hc).
  destruct (filled_sound _ _ _ _ _ _ _ acc_filled i (t.2 - 1) Hlt Hj)
    as [[_ Hnan]|(t' & Ht' & Hk' & Hj' & Hx & Hy)]; [done|].
  exists i. assert (t' = t) as <-; [|by repeat split].
  pose proof (ranked_rank_pos t Ht). pose proof (ranked_rank_pos t' Ht').
  apply elem_of_ranked_of in Ht as (Hr & Hrk & _).
  apply elem_of_ranked_of in Ht' as (Hr' & Hrk' & _).
  assert (t'.1 = t.1) as H1.
  { apply (group_rank_inj key df); eauto using written_same_key.
    rewrite <- Hrk, <- Hrk'. lia. }
  destruct t, t'; simpl in *. f_equal; [done|lia].
Qed.

Lemma batch_sorted i j k y :
  j < k → cell acc.2 i k = Some y → y ≠ NaN →
  ∃ x, cell acc.2 i j = Some x ∧ x ≠ NaN ∧ f_ge x y = true.
Proof.
  intros Hjk Hy Hnan.
  pose proof (filled_wf2 _ _ _ _ _ _ _ acc_filled) as Hwf.
  pose proof (filled_shape2 _ _ _ _ _ _ _ acc_filled) as Hsh.
  injection Hsh as Hn Hm.
  apply cell_lt in Hy as Hlt; [|done]. destruct Hlt as [Hi Hk].
  rewrite Hn in Hi. rewrite Hm in Hk.
  destruct (filled_sound _ _ _ _ _ _ _ acc_filled i k Hi Hk)
    as [[_ ?]|(t & Ht & Hkey & Hrk & _ & Hs)]; [congruence|].
  pose proof (ranked_rank_pos t Ht) as Hpos.
  apply elem_of_ranked_of in Ht as (Hr & Hrank & Hle).
  destruct (group_rank_below key df df_scored df_index t.1 (S j))
    as (r' & Hr' & Hk' & Hrank'); [done|lia|].
  assert ((r', S j) ∈ ranked_of key df mz) as Ht'.
  { apply elem_of_ranked_of. simpl. split_and!; auto. lia. }
  destruct (written_exact _ Ht') as (i' & Hkey' & _ & _ & Hs').
  simpl in *. rewrite Nat.sub_0_r in Hs'.
  assert (i' = i) as -> by (rewrite Hk' in Hkey'; congruence).
  exists (predicted r'). split_and!; auto.
  - intros Heq. apply df_scored in Hr'. by rewrite Heq in Hr'.
  - assert (y = predicted t.1) as -> by congruence.
    apply (group_rank_ge key df); auto. lia.
Qed.

Lemma batch_sentinels i j :
  cell acc.1 i j = Some NaN ↔ cell acc.2 i j = Some NaN.
Proof.
  pose proof (filled_wf1 _ _ _ _ _ _ _ acc_filled) as Hwf1.
  pose proof (filled_wf2 _ _ _ _ _ _ _ acc_filled) as Hwf2.
  pose proof (filled_shape1 _ _ _ _ _ _ _ acc_filled) as Hsh1.
  pose proof (filled_shape2 _ _ _ _ _ _ _ acc_filled) as Hsh2.
  injection Hsh1 as Hn1 Hm1. injection Hsh2 as Hn2 Hm2.
  assert (∀ a, wf a → length (rows a) = length sources →
               ncols a = Z.to_nat mz → is_Some (cell a i j) →
               i < length sources ∧ j < Z.to_nat mz) as Hin.
  { intros a Hwf Hn Hm [v Hv]. apply cell_lt in Hv; [lia|done]. }
  split; intros Hc.
  - destruct (Hin acc.1) as [Hi Hj]; eauto.
    destruct (filled_sound _ _ _ _ _ _ _ acc_filled i j Hi Hj)
      as [[_ ?]|(t & _ & _ & _ & Hx & _)]; [done|].
    rewrite Hx in Hc. discriminate.
  - destruct (Hin acc.2) as [Hi Hj]; eauto.
    destruct (filled_sound _ _ _ _ _ _ _ acc_filled i j Hi Hj)
      as [[? _]|(t & Ht & _ & _ & _ & Hy)]; [done|].
    apply elem_of_ranked_of in Ht as (Ht & _). apply df_scored in Ht.
    rewrite Hy in Hc. injection Hc as Hc. by rewrite Hc in Ht.
Qed.

(** A value in the arrays is the item and score of a ranked row of the
    group of that array row. *)
Lemma batch_origin i j y :
  cell acc.2 i j = Some y → y ≠ NaN →
  ∃ t, t ∈ ranked_of key df mz ∧ is_written t acc i j.
Proof.
  intros Hy Hnan.
  pose proof (filled_shape2 _ _ _ _ _ _ _ acc_filled) as Hsh.
  injection Hsh as Hn Hm.
  apply cell_lt in Hy as Hlt; [|by eapply filled_wf2].
  destruct (filled_sound _ _ _ _ _ _ _ acc_filled i j)
    as [[_ ?]|(t & Ht & Hw)]; [lia|lia|congruence|eauto].
Qed.

(** An array row that no scored row is mapped to stays all-sentinel. *)
Lemma batch_untouched i :
  i < length sources →
  (∀ r, r ∈ df → index_mapping sources !! key r ≠ Some i) →
  rows acc.1 !! i = Some (replicate (Z.to_nat mz) NaN) ∧
  rows acc.2 !! i = Some (replicate (Z.to_nat mz) NaN).
Proof.
  intros Hi Hnone.
  pose proof (filled_wf1 _ _ _ _ _ _ _ acc_filled) as Hwf1.
  pose proof (filled_wf2 _ _ _ _ _ _ _ acc_filled) as Hwf2.
  pose proof (filled_shape1 _ _ _ _ _ _ _ acc_filled) as Hsh1.
  pose proof (filled_shape2 _ _ _ _ _ _ _ acc_filled) as Hsh2.
  injection Hsh1 as Hn1 Hm1. injection Hsh2 as Hn2 Hm2.
  assert (∀ j, j < Z.to_nat mz →
            cell acc.1 i j = Some NaN ∧ cell acc.2 i j = Some NaN) as Hall.
  { intros j Hj.
    destruct (filled_sound _ _ _ _ _ _ _ acc_filled i j Hi Hj)
      as [?|(t & Ht & Hk & _)]; [done|].
    apply elem_of_ranked_of in Ht as (Ht & _). by destruct (Hnone _ Ht). }
  assert (∀ a, wf a → length (rows a) = length sources →
            ncols a = Z.to_nat mz →
            (∀ j, j < Z.to_nat mz → cell a i j = Some NaN) →
            rows a !! i = Some (replicate (Z.to_nat mz) NaN)) as Hrow.
  { intros a Hwf Hn Hm Hc.
    destruct (lookup_lt_is_Some_2 (rows a) i) as [r Hr]; [lia|].
    rewrite Hr. f_equal. unfold wf in Hwf. rewrite Forall_lookup in Hwf.
    apply Hwf in Hr as Hlen. apply list_eq. intros j.
    destruct (decide (j < Z.to_nat mz)) as [Hj|Hj].
    - rewrite lookup_replicate_2 by done.
      rewrite <- (cell_row a i r j Hr). auto.
    - rewrite !lookup_ge_None_2; [done|rewrite length_replicate; lia|lia]. }
  split; apply Hrow; auto; intros j Hj; by apply Hall.
Qed.

Lemma batch_rows :
  Forall2 (λ ri rs, same_sentinels ri rs ∧ row_ranked rs)
    (rows acc.1) (rows acc.2).
Proof.
  pose proof (filled_wf1 _ _ _ _ _ _ _ acc_filled) as Hwf1.
  pose proof (filled_wf2 _ _ _ _ _ _ _ acc_filled) as Hwf2.
  pose proof (filled_shape1 _ _ _ _ _ _ _ acc_filled) as Hsh1.
  pose proof (filled_shape2 _ _ _ _ _ _ _ acc_filled) as Hsh2.
  injection Hsh1 as Hn1 Hm1. injection Hsh2 as Hn2 Hm2.
  apply Forall2_same_length_lookup. split; [congruence|].
  intros i ri rs Hri Hrs. unfold wf in *. rewrite Forall_lookup in Hwf1, Hwf2.
  split; [split|].
  - rewrite (Hwf1 _ _ Hri), (Hwf2 _ _ Hrs). congruence.
  - intros j. rewrite <- (cell_row _ _ _ j Hri), <- (cell_row _ _ _ j Hrs).
    apply batch_sentinels.
  - intros j k y Hjk. rewrite <- (cell_row _ _ _ k Hrs),
      <- (cell_row _ _ _ j Hrs). by apply batch_sorted.
Qed.

End Filled.

(** ** Batches *)

Ltac blia := unfold batch_num in *; lia.

Lemma chunk_take_drop ids i :
  chunk ids i = take batch_num (drop (i * batch_num) ids).
Proof.
  unfold chunk, slice.
  destruct (decide ((i + 1) * batch_num ≤ length ids)) as [Hle|Hgt].
  - f_equal. blia.
  - rewrite !take_ge; [done|rewrite length_drop; blia..].
Qed.

Lemma chunk_length ids i :
  length (chunk ids i) =
  Nat.min ((i + 1) * batch_num) (length ids) - i * batch_num.
Proof. unfold chunk, slice. rewrite length_take, length_drop. blia. Qed.

Lemma chunk_lookup ids i j :
  j < batch_num → chunk ids i !! j = ids !! (i * batch_num + j).
Proof.
  intros Hj. by rewrite chunk_take_drop, lookup_take_lt, lookup_drop.
Qed.

Lemma ceil_div_spec n :
  n ≤ ceil_div n batch_num * batch_num < n + batch_num.
Proof.
  unfold ceil_div, batch_num.
  pose proof (Nat.div_mod_eq (n + 100 - 1) 100).
  pose proof (Nat.mod_upper_bound (n + 100 - 1) 100). blia.
Qed.

Lemma concat_chunks_take ids k :
  concat (chunk ids <$> seq 0 k) = take (k * batch_num) ids.
Proof.
  induction k as [|k IH]; [done|].
  rewrite seq_S, fmap_app, concat_app, IH. simpl.
  rewrite app_nil_r, chunk_take_drop, take_take_drop. f_equal. blia.
Qed.

Lemma concat_chunks ids : concat (chunks ids) = ids.
Proof.
  unfold chunks. rewrite concat_chunks_take. apply take_ge.
  pose proof (ceil_div_spec (length ids)). blia.
Qed.

Lemma div_mod_batch q i :
  q * batch_num ≤ i < (q + 1) * batch_num →
  i `div` batch_num = q ∧ i `mod` batch_num = i - q * batch_num.
Proof.
  intros Hi. unfold batch_num in *.
  assert (q = i `div` 100) as <-.
  { apply (Nat.div_unique i 100 q (i - q * 100)); blia. }
  split; [done|]. symmetry. apply (Nat.mod_unique i 100 q); blia.
Qed.

Lemma vstack_inv a b t c :
  vstack a b = (t, inr c) →
  t = [] ∧ ncols a = ncols b ∧
  c = {| ncols := ncols a; rows := rows a ++ rows b |}.
Proof.
  unfold vstack. destruct (decide _); [|done]. intros [= <- <-]. auto.
Qed.

Section Loop.

Variable sub : list Z → M (ndarray * ndarray).
Variable ev : list Z → list event.
Variable ids : list Z.
Variable w : nat.
Hypothesis sub_returns : ∀ b t s, sub b = (t, inr s) →
  t = ev b ∧ shape s.1 = (length b, w) ∧ shape s.2 = (length b, w).

Lemma batch_loop_inv len : ∀ q acc tr res,
  stacked sub ev ids w q acc →
  batch_loop sub ids (length ids) (seq q len) acc = (tr, inr res) →
  stacked sub ev ids w (q + len) res ∧ tr = loop_trace ev ids (seq q len).
Proof.
  induction len as [|len IH]; intros q acc tr res Hacc.
  { simpl. intros [= <- <-]. by rewrite Nat.add_0_r. }
  simpl seq. cbn [batch_loop].
  fold (chunk ids q).
  intros (t1 & s & t2 & Hs & H & ->)%bind_inr.
  apply bind_inr in H as (t3 & a' & t4 & Ha' & H & ->).
  apply bind_inr in H as (t5 & [] & t6 & [= <-] & H & ->).
  destruct (sub_returns _ _ _ Hs) as (-> & Hs1 & Hs2).
  injection Hs1 as Hn1 Hw1. injection Hs2 as Hn2 Hw2.
  pose proof (chunk_length ids q) as Hlen.
  assert (t3 = [] ∧ stacked sub ev ids w (S q) (Some a')) as [-> Hst].
  { destruct acc as [a|]; simpl in Hacc.
    - destruct Hacc as (Hq & Ha1 & Ha2 & Hrows).
      injection Ha1 as Han1 Haw1. injection Ha2 as Han2 Haw2.
      apply bind_inr in Ha' as (t7 & i1 & t8 & Hv1 & H' & ->).
      apply bind_inr in H' as (t9 & i2 & t10 & Hv2 & [= <- <-] & ->).
      apply vstack_inv in Hv1 as (-> & _ & ->).
      apply vstack_inv in Hv2 as (-> & _ & ->).
      split; [done|]. unfold stacked, shape. simpl rows. simpl ncols.
      rewrite !length_app. split_and!; [blia|f_equal; blia..|].
      intros i Hi.
      destruct (decide (i < Nat.min (q * batch_num) (length ids))) as [Hold|Hnew].
      + destruct (Hrows i Hold) as (s0 & Hs0 & Hr1 & Hr2).
        exists s0. cbn[fst snd]. rewrite !lookup_app_l by blia. auto.
      + destruct (div_mod_batch q i) as [-> ->]; [blia|].
        exists s. cbn [fst snd]. rewrite !lookup_app_r by blia.
        split_and!; [done|f_equal; blia..].
    - subst q. injection Ha' as <- <-. split; [done|].
      unfold stacked, shape. split_and!; [blia|f_equal; blia..|].
      intros i Hi. destruct (div_mod_batch 0 i) as [-> ->]; [blia|].
      exists s. rewrite Nat.sub_0_r. auto. }
  apply IH in H as [Hres ->]; [|done].
  split; [by rewrite Nat.add_succ_r|].
  unfold loop_trace. rewrite bind_cons. simpl.
  by rewrite Hlen, <- app_assoc.
Qed.

End Loop.

Section LoopReturns.

Variable sub : list Z → M (ndarray * ndarray).
Variable ev : list Z → list event.
Variable ids : list Z.
Variable w : nat.

(** The loop returns when every batch does and all batches have the
    same width. *)
Lemma batch_loop_ok len : ∀ q acc,
  match acc with
  | None => True
  | Some a => ncols a.1 = w ∧ ncols a.2 = w
  end →
  (∀ i, q ≤ i < q + len →
     ∃ s, sub (chunk ids i) = (ev (chunk ids i), inr s) ∧
          ncols s.1 = w ∧ ncols s.2 = w) →
  ∃ res, batch_loop sub ids (length ids) (seq q len) acc
         = (loop_trace ev ids (seq q len), inr res) ∧
         (0 < len → is_Some res).
Proof.
  induction len as [|len IH]; intros q acc Hacc Hsub.
  { exists acc. split; [done|lia]. }
  destruct (Hsub q) as (s & Hs & Hw1 & Hw2); [lia|].
  assert (∃ a', match acc with
                | None => ret s
                | Some a =>
                    rec_items <- vstack a.1 s.1 ;
                    rec_scores <- vstack a.2 s.2 ;
                    ret (rec_items, rec_scores)
                end = ([], inr a') ∧ ncols a'.1 = w ∧ ncols a'.2 = w)
    as (a' & Ha' & Hw1' & Hw2').
  { destruct acc as [a|]; [|by exists s].
    destruct Hacc as [Ha1 Ha2]. eexists. unfold vstack.
    rewrite !decide_True by congruence. simpl. done. }
  destruct (IH (S q) (Some a')) as (res & Hres & Hsome); [done| |].
  { intros i Hi. apply Hsub. lia. }
  exists res. split.
  2:{ intros _. destruct len; [|apply Hsome; lia].
      simpl in Hres. injection Hres as <-. by eexists. }
  simpl seq. cbn [batch_loop]. fold (chunk ids q).
  rewrite (bind_ok _ _ _ _ Hs). rewrite (bind_ok _ _ _ _ Ha').
  unfold emit. rewrite (bind_ok _ _ [PbarUpdate _] tt) by done.
  rewrite Hres. simpl. by rewrite chunk_length, <- app_assoc.
Qed.

End LoopReturns.

(** ** The two directions of [recommend] *)

Lemma check_rows_inv acc n t a :
  check_rows acc n = (t, inr a) →
  t = [] ∧ acc = Some a ∧ length (rows a.1) = n ∧ length (rows a.2) = n.
Proof.
  unfold check_rows. destruct acc as [a'|]; [|done].
  destruct (decide _) as [[? ?]|]; [|done]. intros [= <- <-]. auto.
Qed.

Section Recommend.

Variable predict : list (Z * Z) → list float64.
Context {np : numpy}.

Lemma rank_sub_unfold ty targets maxsize batch :
  rank_sub np predict ty targets maxsize batch =
  (user_movie_pair <- np_array np (raw_pairs ty batch targets) ;
   rank_batch predict user_movie_pair (key_of ty) (item_of ty)
     batch (length targets) maxsize).
Proof.
  unfold rank_sub, raw_pairs, key_of, item_of.
  by destruct (String.eqb ty "movie").
Qed.

(** When the cast accepts the ids, a batch is the computation
    [rank_batch] on the pairs modulo [2^32]. *)
Lemma rank_sub_eq ty targets maxsize batch :
  castable np ty batch targets →
  rank_sub np predict ty targets maxsize batch =
  rank_batch predict (pairs_of ty batch targets) (key_of ty) (item_of ty)
    batch (length targets) maxsize.
Proof.
  intros Hc. rewrite rank_sub_unfold, np_array_spec, decide_True by done.
  by rewrite bind_ret_l, wrap_raw_pairs.
Qed.

(** When it does not, the batch raises OverflowError before anything
    else happens. *)
Lemma rank_sub_overflow ty targets maxsize batch :
  ¬ castable np ty batch targets →
  rank_sub np predict ty targets maxsize batch = ([], inl OverflowError).
Proof.
  intros Hc. by rewrite rank_sub_unfold, np_array_spec, decide_False.
Qed.

Lemma rank_sub_inr ty targets maxsize batch t s :
  rank_sub np predict ty targets maxsize batch = (t, inr s) →
  castable np ty batch targets ∧
  rank_batch predict (pairs_of ty batch targets) (key_of ty) (item_of ty)
    batch (length targets) maxsize = (t, inr s).
Proof.
  destruct (decide (castable np ty batch targets)) as [Hc|Hc].
  - rewrite rank_sub_eq by done. auto.
  - by rewrite rank_sub_overflow.
Qed.

Lemma recommend_valid ty users movies maxsize :
  valid_type ty →
  recommend np predict ty users movies maxsize =
  (acc <- batch_loop
            (rank_sub np predict ty (target_ids ty users movies) maxsize)
            (source_ids ty users movies)
            (length (source_ids ty users movies))
            (seq 0 (ceil_div (length (source_ids ty users movies)) batch_num))
            None ;
   check_rows acc (length (source_ids ty users movies))).
Proof. intros [-> | ->]; reflexivity. Qed.

Lemma rank_sub_returns ty targets maxsize b t s :
  rank_sub np predict ty targets maxsize b = (t, inr s) →
  t = batch_events ty targets b ∧
  shape s.1 = (length b, Z.to_nat (maxsize_or_default maxsize targets)) ∧
  shape s.2 = (length b, Z.to_nat (maxsize_or_default maxsize targets)).
Proof.
  intros [_ (-> & _ & _ & _ & Hf)%rank_batch_inv]%rank_sub_inr.
  split; [done|].
  split; [by eapply filled_shape1 | by eapply filled_shape2].
Qed.

(** A returned result is the stack of the batches' results. *)
Lemma recommend_inv ty users movies maxsize tr res :
  valid_type ty →
  recommend np predict ty users movies maxsize = (tr, inr res) →
  let src := source_ids ty users movies in
  let tgt := target_ids ty users movies in
  let mz := maxsize_or_default maxsize tgt in
  src ≠ [] ∧
  shape res.1 = (length src, Z.to_nat mz) ∧
  shape res.2 = (length src, Z.to_nat mz) ∧
  tr = loop_trace (batch_events ty tgt) src
         (seq 0 (ceil_div (length src) batch_num)) ∧
  ∀ i, i < length src →
    ∃ s, rank_sub np predict ty tgt maxsize (chunk src (i `div` batch_num))
         = (batch_events ty tgt (chunk src (i `div` batch_num)), inr s) ∧
         rows res.1 !! i = rows s.1 !! (i `mod` batch_num) ∧
         rows res.2 !! i = rows s.2 !! (i `mod` batch_num).
Proof.
  intros Hty. rewrite recommend_valid by done.
  intros (t1 & acc & t2 & Hloop & Hchk & ->)%bind_inr. cbv zeta.
  apply check_rows_inv in Hchk as (-> & -> & Hn1 & Hn2).
  eapply batch_loop_inv in Hloop as [Hst ->];
    [|apply rank_sub_returns|done].
  unfold stacked in Hst. rewrite Nat.add_0_l in Hst.
  destruct Hst as (Hq & Hs1 & Hs2 & Hrows).
  pose proof (ceil_div_spec (length (source_ids ty users movies))) as Hc.
  assert (Nat.min (ceil_div (length (source_ids ty users movies)) batch_num
                   * batch_num) (length (source_ids ty users movies))
          = length (source_ids ty users movies)) as Hmin by lia.
  rewrite Hmin in *.
  split_and!; auto.
  - intros Hnil. rewrite Hnil in *. simpl in *. blia.
  - by rewrite app_nil_r.
Qed.

End Recommend.

(** ** When a call returns *)


Lemma wrap32_id x : (0 ≤ x < 2 ^ 32)%Z → wrap32 x = x.
Proof. unfold wrap32. intros. by apply Z.mod_small. Qed.

Lemma elem_of_table_of pairs scores r :
  r ∈ table_of pairs scores →
  (userId r, movieId r) ∈ pairs ∧ predicted r ∈ scores ∧
  pairs !! Index r = Some (userId r, movieId r) ∧
  scores !! Index r = Some (predicted r).
Proof.
  unfold table_of. intros (i & [[u m] p] & -> & Hi)%elem_of_lookup_imap.
  apply lookup_zip_Some in Hi as [Hp Hs]. simpl.
  split_and!; auto; by eapply list_elem_of_lookup_2.
Qed.

Lemma elem_of_pairs_of ty batch targets um :
  valid_type ty →
  um ∈ pairs_of ty batch targets →
  ∃ s t, s ∈ batch ∧ t ∈ targets ∧
         key_of ty {| Index := 0; userId := um.1; movieId := um.2;
                      predicted := NaN |} = wrap32 s ∧
         item_of ty {| Index := 0; userId := um.1; movieId := um.2;
                       predicted := NaN |} = wrap32 t.
Proof.
  intros [-> | ->]; unfold pairs_of, key_of, item_of; simpl;
    intros (x & (y & Hxy%list_elem_of_singleton & Hy)%list_elem_of_bind & Hx)
      %list_elem_of_bind; subst um; simpl; eauto 10.
Qed.

Lemma key_of_row ty r :
  key_of ty r = key_of ty {| Index := 0; userId := userId r;
                             movieId := movieId r; predicted := NaN |}.
Proof. unfold key_of. by destruct (String.eqb ty "movie"). Qed.

Lemma item_of_row ty r :
  item_of ty r = item_of ty {| Index := 0; userId := userId r;
                               movieId := movieId r; predicted := NaN |}.
Proof. unfold item_of. by destruct (String.eqb ty "movie"). Qed.

Lemma pairs_of_nil ty batch targets :
  batch ≠ [] → targets ≠ [] → pairs_of ty batch targets ≠ [].
Proof.
  intros Hb Ht. destruct batch as [|s batch]; [done|].
  destruct targets as [|t targets]; [done|].
  unfold pairs_of. by destruct (String.eqb ty "movie").
Qed.

Section Returns.

Variable predict : list (Z * Z) → list float64.

Lemma rank_batch_ok pairs key item sources nt maxsize :
  pairs ≠ [] → length (predict pairs) = length pairs →
  (0 ≤ default (Z.of_nat nt) maxsize)%Z →
  (∀ r, r ∈ scored predict pairs → key r ∈ sources) →
  ∃ acc, rank_batch predict pairs key item sources nt maxsize
         = ([Predict pairs], inr acc).
Proof.
  intros Hne Hlen Hmz Hkeys.
  set (mz := default (Z.of_nat nt) maxsize) in *.
  assert (∃ acc,
    match scored predict pairs with
    | [] => ret (full (length sources) (Z.to_nat mz),
                 full (length sources) (Z.to_nat mz))
    | _ :: _ =>
        foldM (write_row (index_mapping sources) key item)
          (ranked_of key (scored predict pairs) mz)
          (full (length sources) (Z.to_nat mz),
           full (length sources) (Z.to_nat mz))
    end = ([], inr acc)) as [acc Hacc].
  { destruct (scored predict pairs) as [|r df] eqn:Hdf; [by eexists|].
    rewrite <- Hdf in *.
    apply foldM_write_ok with (n := length sources) (m := Z.to_nat mz);
      simpl; rewrite ?length_replicate; auto.
    intros t Ht. pose proof (ranked_rank_pos _ _ _ _ Ht) as Hpos.
    apply elem_of_ranked_of in Ht as (Hr & _ & Hle).
    destruct (index_mapping_is_Some sources (key t.1)) as [i Hi]; [auto|].
    exists i. split_and!; [done|by eapply index_mapping_lt|lia]. }
  exists acc. unfold rank_batch, call_predict.
  rewrite (bind_ok _ _ [Predict pairs] (predict pairs)) by done.
  rewrite (bind_ok _ _ [] _ (hstack_ok _ _ Hlen Hne)).
  rewrite (bind_ok _ _ [] _ (np_full_ok _ _ Hmz)).
  rewrite (bind_ok _ _ [] _ (np_full_ok _ _ Hmz)).
  fold (scored predict pairs). fold mz.
  fold (full (length sources) (Z.to_nat mz)).
  fold (ranked_of key (scored predict pairs) mz).
  by rewrite Hacc.
Qed.

Context {np : numpy}.
Hypothesis predict_length : ∀ pairs, length (predict pairs) = length pairs.

Lemma rank_sub_ok ty targets maxsize batch :
  valid_type ty → batch ≠ [] → targets ≠ [] →
  (0 ≤ maxsize_or_default maxsize targets)%Z →
  in_range batch → in_range targets →
  ∃ s, rank_sub np predict ty targets maxsize batch
       = (batch_events ty targets batch, inr s).
Proof.
  intros Hty Hb Ht Hmz Hrange Htrange.
  rewrite rank_sub_eq by (by apply castable_in_range). unfold batch_events.
  apply rank_batch_ok; auto using pairs_of_nil.
  intros r [Hr _]%elem_of_dropna.
  apply elem_of_table_of in Hr as (Hr & _).
  apply elem_of_pairs_of in Hr as (s & t & Hs & _ & Hk & _); [|done].
  simpl in Hk. rewrite key_of_row, Hk, wrap32_id; [done|].
  unfold in_range in Hrange. rewrite Forall_forall in Hrange. auto.
Qed.

Lemma chunk_nonempty ids i :
  i < ceil_div (length ids) batch_num → chunk ids i ≠ [].
Proof.
  intros Hi Hnil. apply (f_equal length) in Hnil.
  rewrite chunk_length in Hnil. simpl in Hnil.
  pose proof (ceil_div_spec (length ids)). blia.
Qed.

Lemma chunk_Forall (P : Z → Prop) ids i : Forall P ids → Forall P (chunk ids i).
Proof.
  intros H. rewrite chunk_take_drop. by apply Forall_take, Forall_drop.
Qed.

(** [recommend] returns for all non-empty lists of sources and of
    targets within the range of [uint32] and every [maxsize] that is
    unset or not negative. *)
Lemma recommend_ok ty users movies maxsize :
  valid_type ty →
  source_ids ty users movies ≠ [] → target_ids ty users movies ≠ [] →
  (0 ≤ maxsize_or_default maxsize (target_ids ty users movies))%Z →
  in_range (source_ids ty users movies) →
  in_range (target_ids ty users movies) →
  ∃ tr res, recommend np predict ty users movies maxsize = (tr, inr res).
Proof.
  intros Hty Hsrc Htgt Hmz Hrange Htrange. rewrite recommend_valid by done.
  set (src := source_ids ty users movies) in *.
  set (tgt := target_ids ty users movies) in *.
  destruct (batch_loop_ok (rank_sub np predict ty tgt maxsize)
              (batch_events ty tgt) src
              (Z.to_nat (maxsize_or_default maxsize tgt))
              (ceil_div (length src) batch_num) 0 None)
    as (acc & Hloop & Hsome); [done| |].
  { intros i Hi.
    destruct (rank_sub_ok ty tgt maxsize (chunk src i)) as [s Hs];
      auto using chunk_nonempty.
    { apply chunk_nonempty. lia. }
    { by apply chunk_Forall. }
    exists s. split; [done|].
    apply rank_sub_returns in Hs as (_ & [= _ ?] & [= _ ?]). done. }
  destruct Hsome as [a ->].
  { pose proof (ceil_div_spec (length src)).
    destruct src; [done|]. simpl in *. blia. }
  eapply batch_loop_inv in Hloop as Hinv;
    [|apply rank_sub_returns|done].
  destruct Hinv as [(_ & Hn1 & Hn2 & _) _].
  apply (f_equal fst) in Hn1, Hn2. unfold shape in Hn1, Hn2.
  cbn [fst] in Hn1, Hn2.
  pose proof (ceil_div_spec (length src)).
  rewrite (bind_ok _ _ _ _ Hloop). unfold check_rows.
  rewrite decide_True by (split; blia). simpl. eauto.
Qed.

End Returns.

(** ** Rows of the result and the batches they come from *)

Lemma batch_index i :
  i `mod` batch_num < batch_num ∧
  i = i `div` batch_num * batch_num + i `mod` batch_num.
Proof.
  unfold batch_num. pose proof (Nat.mod_upper_bound i 100).
  pose proof (Nat.div_mod_eq i 100). lia.
Qed.

Section Lift.

Variable predict : list (Z * Z) → list float64.
Context {np : numpy}.

(** Row [i] of a returned result, seen in the batch that computed it:
    the batch is [chunk src (i div 100)], the source is its entry
    [i mod 100], and the two rows are rows [i mod 100] of the arrays the
    batch left. *)
Lemma recommend_row ty users movies maxsize tr res i u :
  valid_type ty →
  recommend np predict ty users movies maxsize = (tr, inr res) →
  let src := source_ids ty users movies in
  let tgt := target_ids ty users movies in
  let mz := maxsize_or_default maxsize tgt in
  let b := chunk src (i `div` batch_num) in
  src !! i = Some u →
  ∃ s, rank_sub np predict ty tgt maxsize b = (batch_events ty tgt b, inr s) ∧
       b !! (i `mod` batch_num) = Some u ∧
       rows res.1 !! i = rows s.1 !! (i `mod` batch_num) ∧
       rows res.2 !! i = rows s.2 !! (i `mod` batch_num) ∧
       (0 ≤ mz)%Z ∧
       filled (index_mapping b) (key_of ty) (item_of ty) (length b)
         (Z.to_nat mz)
         (ranked_of (key_of ty) (scored predict (pairs_of ty b tgt)) mz) s.
Proof.
  intros Hty Hrec src tgt mz b Hu.
  destruct (recommend_inv _ _ _ _ _ _ _ Hty Hrec) as (_ & _ & _ & _ & Hrows).
  destruct (Hrows i) as (s & Hs & Hr1 & Hr2); [by eapply lookup_lt_Some|].
  exists s. fold src tgt b in Hs. pose proof Hs as Hinv.
  apply rank_sub_inr in Hinv as [_ Hinv].
  apply rank_batch_inv in Hinv as (_ & _ & _ & Hmz & Hf).
  split_and!; auto.
  unfold b. destruct (batch_index i) as [Hlt Hi].
  rewrite chunk_lookup by done. by rewrite <- Hi.
Qed.

End Lift.

(** * The properties of the specification *)

(** ** Shape of the result *)

(** For non-empty lists of sources and targets within the range of
    [uint32], a [predict] that scores every pair and a [maxsize] that is
    unset or not negative, [recommend] returns two arrays of shape
    [(len(sources), maxsize)], the width being the number of targets when
    [maxsize] is unset. *)
Lemma recommend_shape np predict ty users movies maxsize :
  (∀ pairs, length (predict pairs) = length pairs) →
  valid_type ty →
  source_ids ty users movies ≠ [] → target_ids ty users movies ≠ [] →
  (0 ≤ maxsize_or_default maxsize (target_ids ty users movies))%Z →
  in_range (source_ids ty users movies) →
  in_range (target_ids ty users movies) →
  ∃ tr items scores,
    recommend np predict ty users movies maxsize = (tr, inr (items, scores)) ∧
    shape items
    = (length (source_ids ty users movies),
       Z.to_nat (maxsize_or_default maxsize (target_ids ty users movies))) ∧
    shape scores = shape items.
Proof.
  intros Hlen Hty Hsrc Htgt Hmz Hrange Htrange.
  destruct (recommend_ok predict (np:=np) Hlen ty users movies maxsize)
    as (tr & [items scores] & Hrec); auto.
  exists tr, items, scores. split; [done|].
  apply recommend_inv in Hrec as (_ & H1 & H2 & _); [|done].
  simpl in *. split; congruence.
Qed.

(** C1: for every valid direction, any list of source ids (the
    empty list included), any list of target ids and any maxsize, the two
    returned matrices have the shape (len(source_ids), maxsize).  The code
    does not do this: with an empty list of sources no matrix is returned,
    in either direction, and with an empty list of targets the first
    batch fails. *)
Theorem recommend_empty_list_raises np :
  recommend np scenario_predict "movie" [] [10; 20; 30]%Z (Some 2%Z)
  = ([], inl AttributeError) ∧
  recommend np scenario_predict "user" [1; 2]%Z [] (Some 2%Z)
  = ([], inl AttributeError) ∧
  recommend np scenario_predict "movie" [1; 2]%Z [] (Some 2%Z)
  = ([Predict []], inl ValueError).
Proof. destruct np; split_and!; vm_compute; reflexivity. Qed.

(** ** Invalid direction *)

(** C7: for every direction other than 'movie' and 'user',
    [recommend] raises ValueError at once: the trace is empty, so no batch
    was started, [predict] was never called and the progress bar never
    moved. *)
Theorem recommend_wrong_type np predict ty users movies maxsize :
  ty ≠ "movie" → ty ≠ "user" →
  recommend np predict ty users movies maxsize = ([], inl ValueError).
Proof.
  intros H1%String.eqb_neq H2%String.eqb_neq. unfold recommend.
  by rewrite H1, H2.
Qed.

Lemma recommend_wrong_type_witness :
  recommend NumPy2 scenario_predict "Movie" [1; 2]%Z [10; 20; 30]%Z None
  = ([], inl ValueError).
Proof.
  apply (recommend_wrong_type NumPy2 scenario_predict "Movie"); vm_compute;
    discriminate.
Defined.

(** ** Empty list of sources *)

(** C8: with a valid direction and an empty list of sources the
    loop runs over an empty range, nothing is predicted or stacked, and
    reading [shape] of the accumulator, still [None], raises
    AttributeError: no pair of zero-row matrices is returned. *)
Theorem recommend_no_sources np predict ty users movies maxsize :
  valid_type ty → source_ids ty users movies = [] →
  seq 0 (ceil_div (length (source_ids ty users movies)) batch_num) = [] ∧
  recommend np predict ty users movies maxsize = ([], inl AttributeError).
Proof.
  intros Hty Hsrc. rewrite recommend_valid, Hsrc by done. done.
Qed.

Lemma recommend_no_sources_witness :
  seq 0 (ceil_div (length (source_ids "user" [1; 2]%Z [])) batch_num) = [] ∧
  recommend NumPy2 scenario_predict "user" [1; 2]%Z [] None
  = ([], inl AttributeError).
Proof.
  apply (recommend_no_sources NumPy2 scenario_predict "user" [1; 2]%Z []
           None).
  - right. reflexivity.
  - reflexivity.
Defined.

(** ** Order within a row *)

(** C2: for every call of [recommend] with a valid direction that
    returns, every row of the score matrix lists its values by descending
    score, column after column, and no sentinel precedes a value; the
    item matrix holds the sentinel in exactly the same cells. *)
Theorem recommend_rows_ranked np predict ty users movies maxsize tr items scores :
  valid_type ty →
  recommend np predict ty users movies maxsize = (tr, inr (items, scores)) →
  Forall2 (λ ri rs, same_sentinels ri rs ∧ row_ranked rs)
    (rows items) (rows scores).
Proof.
  intros Hty Hrec.
  destruct (recommend_inv _ _ _ _ _ _ _ Hty Hrec) as (_ & H1 & H2 & _).
  apply (f_equal fst) in H1, H2. unfold shape in H1, H2. cbn [fst snd] in *.
  apply Forall2_same_length_lookup. split; [congruence|].
  intros i ri rs Hri Hrs.
  destruct (lookup_lt_is_Some_2 (source_ids ty users movies) i) as [u Hu].
  { apply lookup_lt_Some in Hri. lia. }
  destruct (recommend_row _ _ _ _ _ _ _ i u Hty Hrec Hu)
    as (s & _ & _ & Hr1 & Hr2 & _ & Hf).
  cbn [fst snd] in Hr1, Hr2. rewrite Hri in Hr1. rewrite Hrs in Hr2.
  eapply batch_rows in Hf;
    [|apply dropna_scored|apply dropna_index, table_of_index].
  rewrite Forall2_lookup in Hf. specialize (Hf (i `mod` batch_num)).
  rewrite <- Hr1, <- Hr2 in Hf. by inversion Hf.
Qed.

Lemma recommend_rows_ranked_witness :
  Forall2 (λ ri rs, same_sentinels ri rs ∧ row_ranked rs)
    (rows scenario_items) (rows scenario_scores).
Proof.
  apply (recommend_rows_ranked NumPy2 scenario_predict "movie" [1; 2]%Z
           [10; 20; 30]%Z (Some 2%Z) scenario_trace).
  - left. reflexivity.
  - vm_compute. reflexivity.
Defined.

(** ** Ties *)

Lemma elem_of_rank_first key df r k :
  (r, k) ∈ rank_first key df ↔ r ∈ df ∧ k = group_rank key df r.
Proof.
  unfold rank_first. rewrite list_elem_of_fmap. split.
  - intros (r' & [= -> ->] & Hr). auto.
  - intros [Hr ->]. eauto.
Qed.

(** C3: in a batch, of two scored pairs of the same source with
    equal scores, the one that comes first in the cross product ([Index]
    is the position there) gets the smaller rank, whatever the ids are;
    when both ranks are within [maxsize] the two targets stand in the same
    row of the item matrix, the first pair in the earlier column. *)
Theorem ties_go_to_first np predict ty targets maxsize batch tr acc a b ra rb :
  valid_type ty →
  rank_sub np predict ty targets maxsize batch = (tr, inr acc) →
  let pairs := pairs_of ty batch targets in
  let df := scored predict pairs in
  (a, ra) ∈ rank_first (key_of ty) df →
  (b, rb) ∈ rank_first (key_of ty) df →
  key_of ty a = key_of ty b →
  f_eq (predicted a) (predicted b) = true →
  Index a < Index b →
  pairs !! Index a = Some (userId a, movieId a) ∧
  pairs !! Index b = Some (userId b, movieId b) ∧
  ra < rb ∧
  ((Z.of_nat rb ≤ maxsize_or_default maxsize targets)%Z →
   ∃ i, cell acc.1 i (ra - 1) = Some (of_int (item_of ty a)) ∧
        cell acc.1 i (rb - 1) = Some (of_int (item_of ty b)) ∧
        ra - 1 < rb - 1).
Proof.
  intros Hty Hsub pairs df [Ha ->]%elem_of_rank_first
    [Hb ->]%elem_of_rank_first Hkey Heq Hidx.
  assert (Hdf_scored : ∀ r, r ∈ df → isnan (predicted r) = false)
    by apply dropna_scored.
  assert (Hdf_index : NoDup (Index <$> df))
    by apply dropna_index, table_of_index.
  pose proof (group_rank_first (key_of ty) df a b Ha Hkey Heq Hidx) as Hlt.
  apply elem_of_dropna in Ha as Hta. apply elem_of_dropna in Hb as Htb.
  destruct Hta as [(_ & _ & Hpa & _)%elem_of_table_of _].
  destruct Htb as [(_ & _ & Hpb & _)%elem_of_table_of _].
  split_and!; auto.
  intros Hle. apply rank_sub_inr in Hsub as [_ Hsub].
  apply rank_batch_inv in Hsub as (_ & _ & _ & _ & Hf).
  fold pairs df (maxsize_or_default maxsize targets) in Hf.
  set (mz := maxsize_or_default maxsize targets) in *.
  assert ((a, group_rank (key_of ty) df a) ∈ ranked_of (key_of ty) df mz)
    as Hra by (apply elem_of_ranked_of; cbn [fst snd]; split_and!; auto; lia).
  assert ((b, group_rank (key_of ty) df b) ∈ ranked_of (key_of ty) df mz)
    as Hrb by (apply elem_of_ranked_of; cbn [fst snd]; split_and!; auto).
  destruct (written_exact _ _ _ _ _ _ Hdf_scored Hdf_index Hf _ Hra)
    as (i & Hia & _ & Hca & _).
  destruct (written_exact _ _ _ _ _ _ Hdf_scored Hdf_index Hf _ Hrb)
    as (i' & Hib & _ & Hcb & _).
  cbn [fst snd] in *.
  assert (i' = i) as -> by (rewrite Hkey in Hia; congruence).
  exists i. split_and!; auto.
  pose proof (group_rank_pos (key_of ty) df a). lia.
Qed.

Lemma ties_go_to_first_witness :
  pairs_of "movie" [1; 2]%Z [10; 20; 30]%Z !! 1 = Some (2, 10)%Z ∧
  pairs_of "movie" [1; 2]%Z [10; 20; 30]%Z !! 3 = Some (2, 20)%Z ∧
  2 < 3 ∧
  ((3 ≤ maxsize_or_default None [10; 20; 30]%Z)%Z →
   ∃ i, cell {| ncols := 3;
                rows := [[of_int 10; of_int 20; NaN];
                         [of_int 30; of_int 10; of_int 20]] |} i (2 - 1)
        = Some (of_int 10) ∧
        cell {| ncols := 3;
                rows := [[of_int 10; of_int 20; NaN];
                         [of_int 30; of_int 10; of_int 20]] |} i (3 - 1)
        = Some (of_int 20) ∧
        2 - 1 < 3 - 1).
Proof.
  apply (ties_go_to_first NumPy2 scenario_predict "movie" [10; 20; 30]%Z None
           [1; 2]%Z
           [Predict [(1, 10); (2, 10); (1, 20); (2, 20); (1, 30); (2, 30)]%Z]
           ({| ncols := 3;
               rows := [[of_int 10; of_int 20; NaN];
                        [of_int 30; of_int 10; of_int 20]] |},
            {| ncols := 3;
               rows := [[frac 9 10; frac 5 10; NaN]; [frac 8 10; frac 1 10; frac 1 10]] |})
           tie_first tie_second 2 3).
  - left. reflexivity.
  - vm_compute. reflexivity.
  - apply (list_elem_of_lookup_2 _ 1). vm_compute. reflexivity.
  - apply (list_elem_of_lookup_2 _ 3). vm_compute. reflexivity.
  - reflexivity.
  - reflexivity.
  - simpl. lia.
Defined.

(** ** Batches of one hundred *)

Lemma cell_lift a a' i i' j :
  rows a !! i = rows a' !! i' → cell a i j = cell a' i' j.
Proof. unfold cell. by intros ->. Qed.

Lemma chunks_lookup ids q :
  q < length (chunks ids) → chunks ids !! q = Some (chunk ids q).
Proof.
  unfold chunks. rewrite length_fmap, length_seq. intros Hq.
  by rewrite list_lookup_fmap, lookup_seq_lt.
Qed.

Lemma chunks_trace ev ids :
  loop_trace ev ids (seq 0 (ceil_div (length ids) batch_num)) =
  (b ← chunks ids; ev b ++ [PbarUpdate (length b)]).
Proof.
  unfold loop_trace, chunks.
  induction (seq 0 (ceil_div (length ids) batch_num)) as [|i l IH]; [done|].
  rewrite fmap_cons, !bind_cons. by rewrite IH.
Qed.

Lemma chunks_250 ids :
  length ids = 250 → length <$> chunks ids = [100; 100; 50].
Proof.
  intros Hlen. unfold chunks. rewrite Hlen.
  change (seq 0 (ceil_div 250 batch_num)) with [0; 1; 2].
  rewrite !fmap_cons, !chunk_length, Hlen. reflexivity.
Qed.

(** Every value of a returned result is a recommendation for the source
    of its row. *)
Lemma recommend_values {np} predict ty users movies maxsize tr items scores i u j y :
  valid_type ty →
  recommend np predict ty users movies maxsize = (tr, inr (items, scores)) →
  let src := source_ids ty users movies in
  let tgt := target_ids ty users movies in
  src !! i = Some u →
  cell scores i j = Some y → y ≠ NaN →
  ∃ x, cell items i j = Some x ∧
       recommended predict ty (chunk src (i `div` batch_num)) tgt u j x y.
Proof.
  intros Hty Hrec. cbv zeta. intros Hu Hy Hnan.
  destruct (recommend_row _ _ _ _ _ _ _ i u Hty Hrec Hu)
    as (s & _ & Hb & Hr1 & Hr2 & _ & Hf).
  cbn [fst snd] in Hr1, Hr2.
  rewrite (cell_lift _ _ _ _ _ Hr2) in Hy. rewrite (cell_lift _ _ _ _ j Hr1).
  destruct (batch_origin _ _ _ _ _ _ Hf _ _ _ Hy Hnan)
    as (t & Ht & Hk & Hj & Hx & Hy').
  pose proof (ranked_rank_pos _ _ _ _ Ht) as Hpos.
  apply elem_of_ranked_of in Ht as (Ht & Hrk & _).
  apply index_mapping_lookup in Hk as [Hk _].
  exists (of_int (item_of ty t.1)). split; [done|].
  exists t.1. split_and!; auto; [congruence|lia|congruence].
Qed.

Section Stack.

Variable sub : list Z → M (ndarray * ndarray).
Variable ids : list Z.
Variable n : nat.

(** The loop appends the rows of every batch, in the order of the
    batches, to the rows it started with. *)
Lemma batch_loop_stack range : ∀ acc t res,
  batch_loop sub ids n range acc = (t, inr res) →
  ∃ subs,
    Forall2 (λ i s, ∃ ti,
               sub (slice ids (i * batch_num)
                      (Nat.min ((i + 1) * batch_num) n)) = (ti, inr s))
      range subs ∧
    (rows_of res).1 = (rows_of acc).1 ++ concat ((λ s, rows s.1) <$> subs) ∧
    (rows_of res).2 = (rows_of acc).2 ++ concat ((λ s, rows s.2) <$> subs).
Proof.
  induction range as [|i range IH]; intros acc t res.
  { simpl. intros [= <- <-]. exists []. split; [constructor|].
    by rewrite !app_nil_r. }
  cbn [batch_loop].
  intros (t1 & s & t2 & Hs & H & ->)%bind_inr.
  apply bind_inr in H as (t3 & a' & t4 & Ha' & H & ->).
  apply bind_inr in H as (t5 & [] & t6 & _ & H & ->).
  apply IH in H as (subs & Hsubs & H1 & H2).
  exists (s :: subs). split; [constructor; eauto|].
  rewrite H1, H2, !fmap_cons, !concat_cons, !app_assoc.
  destruct acc as [a|]; simpl.
  - apply bind_inr in Ha' as (t7 & i1 & t8 & Hv1 & H' & ->).
    apply bind_inr in H' as (t9 & i2 & t10 & Hv2 & [= <- <-] & ->).
    apply vstack_inv in Hv1 as (_ & _ & ->).
    apply vstack_inv in Hv2 as (_ & _ & ->). done.
  - by injection Ha' as <- <-.
Qed.

End Stack.

(** A returned result is the stack of what the rankings of the chunks
    return, in the order of the chunks. *)
Lemma recommend_stack {np} predict ty users movies maxsize tr items scores :
  valid_type ty →
  recommend np predict ty users movies maxsize = (tr, inr (items, scores)) →
  let src := source_ids ty users movies in
  let tgt := target_ids ty users movies in
  ∃ subs,
    Forall2 (λ b s, rank_sub np predict ty tgt maxsize b
                    = ([Predict (pairs_of ty b tgt)], inr s))
      (chunks src) subs ∧
    rows items = concat ((λ s, rows s.1) <$> subs) ∧
    rows scores = concat ((λ s, rows s.2) <$> subs).
Proof.
  intros Hty. rewrite recommend_valid by done. cbv zeta.
  intros (t1 & acc & t2 & Hloop & Hchk & ->)%bind_inr.
  apply check_rows_inv in Hchk as (-> & -> & _).
  apply batch_loop_stack in Hloop as (subs & Hsubs & H1 & H2).
  exists subs. split; [|done].
  unfold chunks. apply Forall2_fmap_l.
  eapply Forall2_impl; [exact Hsubs|].
  intros i s [ti Hs]. simpl. fold (chunk (source_ids ty users movies) i) in Hs.
  by apply rank_sub_returns in Hs as Hret; destruct Hret as (-> & _).
Qed.

(** [recommend] returns when it has a source and the ranking of every
    chunk returns. *)
Lemma recommend_returns {np} predict ty users movies maxsize :
  valid_type ty →
  source_ids ty users movies ≠ [] →
  (∀ b, b ∈ chunks (source_ids ty users movies) →
        ∃ t s, rank_sub np predict ty (target_ids ty users movies) maxsize b
               = (t, inr s)) →
  ∃ tr res, recommend np predict ty users movies maxsize = (tr, inr res).
Proof.
  set (src := source_ids ty users movies).
  set (tgt := target_ids ty users movies).
  intros Hty Hsrc Hall. rewrite recommend_valid by done. fold src tgt.
  pose proof (ceil_div_spec (length src)) as Hc.
  assert (0 < ceil_div (length src) batch_num) as Hpos.
  { assert (length src ≠ 0) by (by intros ?%nil_length_inv). blia. }
  destruct (batch_loop_ok (rank_sub np predict ty tgt maxsize)
              (batch_events ty tgt) src
              (Z.to_nat (maxsize_or_default maxsize tgt))
              (ceil_div (length src) batch_num) 0 None)
    as (acc & Hloop & Hsome); [done| |].
  { intros k Hk.
    destruct (Hall (chunk src k)) as (t & s & Hs).
    { unfold chunks. apply list_elem_of_fmap. exists k.
      split; [done|]. apply elem_of_seq. lia. }
    apply rank_sub_returns in Hs as Hret.
    destruct Hret as (-> & Hs1 & Hs2).
    apply (f_equal snd) in Hs1, Hs2. eauto. }
  destruct Hsome as [a ->]; [done|].
  eapply batch_loop_inv in Hloop as Hinv;
    [|apply rank_sub_returns|done].
  destruct Hinv as [(_ & Hn1 & Hn2 & _) _].
  apply (f_equal fst) in Hn1, Hn2. unfold shape in Hn1, Hn2.
  cbn [fst] in Hn1, Hn2.
  rewrite (bind_ok _ _ _ _ Hloop). unfold check_rows.
  rewrite decide_True by (split; blia). simpl. eauto.
Qed.

(** C4: [recommend] cuts the list of sources into consecutive
    chunks of 100 (three chunks of 100, 100 and 50 for 250 sources) and
    ranks the chunks one after the other.  It returns exactly when there
    is a source and the ranking of every chunk returns, and it returns
    the stack of what the rankings return, in the order of the chunks:
    row [i] of the result is row [i mod 100] of the arrays returned for
    chunk [i div 100], where the source is the [i]-th of the caller's
    list, and every value in it is a recommendation for that source. *)
Theorem recommend_batches np predict ty users movies maxsize :
  valid_type ty →
  let src := source_ids ty users movies in
  let tgt := target_ids ty users movies in
  let returns b s :=
    rank_sub np predict ty tgt maxsize b
    = ([Predict (pairs_of ty b tgt)], inr s) in
  (concat (chunks src) = src ∧
   (∀ k, k < length (chunks src) →
      chunks src !! k = Some (take batch_num (drop (k * batch_num) src)) ∧
      chunk src k = take batch_num (drop (k * batch_num) src) ∧
      0 < length (chunk src k) ≤ batch_num ∧
      (k + 1 < length (chunks src) → length (chunk src k) = batch_num)) ∧
   (length src = 250 → length <$> chunks src = [100; 100; 50])) ∧
  ((∃ tr items scores,
      recommend np predict ty users movies maxsize
      = (tr, inr (items, scores))) ↔
   src ≠ [] ∧ ∀ b, b ∈ chunks src → ∃ s, returns b s) ∧
  ∀ tr items scores,
    recommend np predict ty users movies maxsize = (tr, inr (items, scores)) →
    tr = (b ← chunks src;
          [Predict (pairs_of ty b tgt); PbarUpdate (length b)]) ∧
    (∃ subs, Forall2 returns (chunks src) subs ∧
             rows items = concat ((λ s, rows s.1) <$> subs) ∧
             rows scores = concat ((λ s, rows s.2) <$> subs)) ∧
    ∀ i u, src !! i = Some u →
      let b := chunk src (i `div` batch_num) in
      ∃ s, returns b s ∧
           b !! (i `mod` batch_num) = Some u ∧
           rows items !! i = rows s.1 !! (i `mod` batch_num) ∧
           rows scores !! i = rows s.2 !! (i `mod` batch_num) ∧
           ∀ j y, cell scores i j = Some y → y ≠ NaN →
             ∃ x, cell items i j = Some x ∧
                  recommended predict ty b tgt u j x y.
Proof.
  intros Hty src tgt returns. split_and!.
  - apply concat_chunks.
  - intros k Hk. rewrite chunks_lookup, <- chunk_take_drop by done.
    unfold chunks in *. rewrite length_fmap, length_seq in *.
    pose proof (ceil_div_spec (length src)).
    rewrite chunk_length. split_and!; [done..|blia|blia|blia].
  - apply chunks_250.
  - split.
    + intros (tr & items & scores & Hrec).
      destruct (recommend_inv _ _ _ _ _ _ _ Hty Hrec) as (Hsrc & _).
      split; [done|].
      destruct (recommend_stack _ _ _ _ _ _ _ _ Hty Hrec) as (subs & Hsubs & _).
      intros b (k & Hk)%list_elem_of_lookup.
      destruct (Forall2_lookup_l _ _ _ _ _ Hsubs Hk) as (s & _ & Hs).
      by exists s.
    + intros [Hsrc Hall].
      destruct (recommend_returns predict ty users movies maxsize (np:=np))
        as (tr & [items scores] & Hrec); [done|done| |by eauto].
      intros b Hb. destruct (Hall b Hb) as [s Hs]. eauto.
  - intros tr items scores Hrec.
    destruct (recommend_inv _ _ _ _ _ _ _ Hty Hrec) as (_ & _ & _ & -> & _).
    fold src tgt. split_and!.
    + apply chunks_trace.
    + exact (recommend_stack predict ty users movies maxsize _ _ _ Hty Hrec).
    + intros i u Hu b.
      destruct (recommend_row _ _ _ _ _ _ _ i u Hty Hrec Hu)
        as (s & Hs & Hb & Hr1 & Hr2 & _ & Hf).
      fold src tgt b in Hs, Hb, Hf. cbn [fst snd] in Hr1, Hr2.
      exists s. split_and!; auto.
      intros j y Hy Hnan. by eapply recommend_values.
Qed.

Lemma recommend_batches_witness :
  let src := source_ids "movie" crowd [7]%Z in
  let tgt := target_ids "movie" crowd [7]%Z in
  let returns b s :=
    rank_sub NumPy2 crowd_predict "movie" tgt None b
    = ([Predict (pairs_of "movie" b tgt)], inr s) in
  recommend NumPy2 crowd_predict "movie" crowd [7]%Z None
  = (crowd_trace, inr (crowd_items, crowd_scores)) ∧
  length <$> chunks src = [100; 100; 50] ∧
  crowd_trace = (b ← chunks src;
                 [Predict (pairs_of "movie" b tgt); PbarUpdate (length b)]) ∧
  (∃ subs, Forall2 returns (chunks src) subs ∧
           rows crowd_items = concat ((λ s, rows s.1) <$> subs) ∧
           rows crowd_scores = concat ((λ s, rows s.2) <$> subs)) ∧
  ∀ i u, src !! i = Some u →
    let b := chunk src (i `div` batch_num) in
    ∃ s, returns b s ∧
         b !! (i `mod` batch_num) = Some u ∧
         rows crowd_items !! i = rows s.1 !! (i `mod` batch_num) ∧
         rows crowd_scores !! i = rows s.2 !! (i `mod` batch_num) ∧
         ∀ j y, cell crowd_scores i j = Some y → y ≠ NaN →
           ∃ x, cell crowd_items i j = Some x ∧
                recommended crowd_predict "movie" b tgt u j x y.
Proof.
  assert (recommend NumPy2 crowd_predict "movie" crowd [7]%Z None
          = (crowd_trace, inr (crowd_items, crowd_scores))) as Hrec
    by (vm_compute; reflexivity).
  destruct (recommend_batches NumPy2 crowd_predict "movie" crowd [7]%Z None)
    as ((_ & _ & H250) & _ & Hres); [left; reflexivity|].
  destruct (Hres _ _ _ Hrec) as (Htr & Hstack & Hrows).
  split_and!; [exact Hrec|apply H250; reflexivity|exact Htr|exact Hstack|
               exact Hrows].
Defined.

(** ** Missing scores *)

(** The ids in the table are the cast ids of the batch and the targets. *)
Lemma table_ids ty batch targets scores r :
  valid_type ty →
  r ∈ table_of (pairs_of ty batch targets) scores →
  ∃ s t, s ∈ batch ∧ t ∈ targets ∧
         key_of ty r = wrap32 s ∧ item_of ty r = wrap32 t.
Proof.
  intros Hty (Hr & _)%elem_of_table_of.
  apply elem_of_pairs_of in Hr as (s & t & Hs & Ht & Hk & Hi); [|done].
  simpl in Hk, Hi. exists s, t. by rewrite key_of_row, item_of_row.
Qed.

Lemma rank_first_scored key df r k :
  (r, k) ∈ rank_first key (dropna df) → predicted r ≠ NaN.
Proof. by intros [[_ ?]%elem_of_dropna _]%elem_of_rank_first. Qed.




(** ** Scores that are not finite *)

(** C6 fails as it is stated: an infinite score is ranked and
    returned, since [dropna] removes NaN only, on NumPy 1 as on
    NumPy 2. *)
Lemma inf_score_recommended :
  recommend NumPy1 inf_predict "movie" [1]%Z [10]%Z None
  = ([Predict [(1, 10)%Z]; PbarUpdate 1],
     inr ({| ncols := 1; rows := [[of_int 10]] |},
          {| ncols := 1; rows := [[PosInf]] |})) ∧
  recommend NumPy2 inf_predict "movie" [1]%Z [10]%Z None
  = ([Predict [(1, 10)%Z]; PbarUpdate 1],
     inr ({| ncols := 1; rows := [[of_int 10]] |},
          {| ncols := 1; rows := [[PosInf]] |})) ∧
  ¬ non_finite_excluded NumPy1 inf_predict "movie" [1]%Z [10]%Z None ∧
  ¬ non_finite_excluded NumPy2 inf_predict "movie" [1]%Z [10]%Z None.
Proof.
  assert (∀ np, recommend np inf_predict "movie" [1]%Z [10]%Z None
                = ([Predict [(1, 10)%Z]; PbarUpdate 1],
                   inr ({| ncols := 1; rows := [[of_int 10]] |},
                        {| ncols := 1; rows := [[PosInf]] |}))) as Hrec
    by (intros []; vm_compute; reflexivity).
  split_and!; [apply Hrec..| |]; intros H;
    destruct (H _ _ _ 0 0 PosInf (Hrec _)) as [?|?];
    reflexivity || discriminate.
Qed.

(** C6, amended: only a NaN score is missing.  In the batch of
    a source, a pair scored NaN is not among the ranked rows and gets no
    rank; every other pair, one scored plus or minus infinity included,
    is ranked, and when its rank is within [maxsize] its target and score
    stand in the result, in a row of that source and the column of the
    rank.  Every value of the result comes from a pair whose score is
    not NaN. *)
Theorem only_nan_is_missing np predict ty users movies maxsize tr items scores :
  valid_type ty →
  recommend np predict ty users movies maxsize = (tr, inr (items, scores)) →
  let src := source_ids ty users movies in
  let tgt := target_ids ty users movies in
  let mz := maxsize_or_default maxsize tgt in
  ∀ i u, src !! i = Some u →
    let b := chunk src (i `div` batch_num) in
    let table := table_of (pairs_of ty b tgt) (predict (pairs_of ty b tgt)) in
    (∀ j y, cell scores i j = Some y → y ≠ NaN →
       ∃ x, cell items i j = Some x ∧ recommended predict ty b tgt u j x y) ∧
    ∀ r, r ∈ table → key_of ty r = u →
      (predicted r = NaN →
       (r ∉ dropna table) ∧
       ∀ k, (r, k) ∉ rank_first (key_of ty) (dropna table)) ∧
      (predicted r ≠ NaN →
       let k := group_rank (key_of ty) (dropna table) r in
       (r, k) ∈ rank_first (key_of ty) (dropna table) ∧
       ((Z.of_nat k ≤ mz)%Z →
        ∃ i', src !! i' = Some u ∧
              i' `div` batch_num = i `div` batch_num ∧
              cell items i' (k - 1) = Some (of_int (item_of ty r)) ∧
              cell scores i' (k - 1) = Some (predicted r))).
Proof.
  intros Hty Hrec src tgt mz i u Hu b table. split.
  { intros j y Hy Hnan. by eapply recommend_values. }
  intros r Hr Hkey. split.
  { intros Hnan. split.
    - rewrite elem_of_dropna. tauto.
    - intros k Hin%rank_first_scored. done. }
  intros Hnan k.
  assert (r ∈ dropna table) as Hdr by (by apply elem_of_dropna).
  split; [by apply elem_of_rank_first|]. intros Hle.
  destruct (recommend_row _ _ _ _ _ _ _ i u Hty Hrec Hu)
    as (s & Hs & Hb & _ & _ & _ & Hf).
  fold src tgt b mz in Hs, Hb, Hf. fold table in Hf.
  assert ((r, k) ∈ ranked_of (key_of ty) (dropna table) mz) as Hrk
    by (by apply elem_of_ranked_of).
  destruct (written_exact _ _ _ _ _ _ (dropna_scored table)
              (dropna_index _ (table_of_index _ _)) Hf _ Hrk)
    as (l & Hl & _ & Hci & Hcs).
  cbn [fst snd] in Hl, Hci, Hcs.
  apply index_mapping_lookup in Hl as [Hl _].
  apply lookup_lt_Some in Hl as Hlt.
  assert (l < batch_num) as Hlb.
  { unfold b in Hlt. rewrite chunk_length in Hlt. blia. }
  set (i' := i `div` batch_num * batch_num + l).
  destruct (div_mod_batch (i `div` batch_num) i') as [Hdiv Hmod];
    [unfold i'; blia|].
  assert (src !! i' = Some u) as Hu'.
  { unfold b in Hl. rewrite chunk_lookup in Hl by done. fold i' in Hl.
    congruence. }
  destruct (recommend_row _ _ _ _ _ _ _ i' u Hty Hrec Hu')
    as (s' & Hs' & _ & Hr1 & Hr2 & _).
  fold src tgt in Hs'. rewrite Hdiv in Hs'. fold b in Hs'.
  assert (s' = s) as -> by congruence.
  cbn [fst snd] in Hr1, Hr2.
  assert (i' `mod` batch_num = l) as Hl' by (rewrite Hmod; unfold i'; lia).
  rewrite Hl' in Hr1, Hr2.
  exists i'. split_and!; auto.
  - by rewrite (cell_lift _ _ _ _ _ Hr1).
  - by rewrite (cell_lift _ _ _ _ _ Hr2).
Qed.

Lemma only_nan_is_missing_witness :
  let predict := scenario_predict in
  let src := source_ids "movie" [1; 2]%Z [10; 20; 30]%Z in
  let tgt := target_ids "movie" [1; 2]%Z [10; 20; 30]%Z in
  let mz := maxsize_or_default (Some 2%Z) tgt in
  let b := chunk src (0 `div` batch_num) in
  let table :=
    table_of (pairs_of "movie" b tgt) (predict (pairs_of "movie" b tgt)) in
  (∀ j y, cell scenario_scores 0 j = Some y → y ≠ NaN →
     ∃ x, cell scenario_items 0 j = Some x ∧
          recommended predict "movie" b tgt 1%Z j x y) ∧
  ∀ r, r ∈ table → key_of "movie" r = 1%Z →
    (predicted r = NaN →
     (r ∉ dropna table) ∧
     ∀ k, (r, k) ∉ rank_first (key_of "movie") (dropna table)) ∧
    (predicted r ≠ NaN →
     let k := group_rank (key_of "movie") (dropna table) r in
     (r, k) ∈ rank_first (key_of "movie") (dropna table) ∧
     ((Z.of_nat k ≤ mz)%Z →
      ∃ i', src !! i' = Some 1%Z ∧
            i' `div` batch_num = 0 `div` batch_num ∧
            cell scenario_items i' (k - 1)
            = Some (of_int (item_of "movie" r)) ∧
            cell scenario_scores i' (k - 1) = Some (predicted r))).
Proof.
  apply (only_nan_is_missing NumPy2 scenario_predict "movie" [1; 2]%Z [10; 20; 30]%Z
           (Some 2%Z) scenario_trace scenario_items scenario_scores).
  - left. reflexivity.
  - vm_compute. reflexivity.
  - reflexivity.
Defined.

(** ** A source listed twice in a batch *)

(** C9: when a source id stands at two positions of a batch, the
    row of the earlier position stays all-sentinel in both arrays, and
    every ranked pair of that id within [maxsize] is written, at the
    column of its rank, into the row of the last position of the id. *)
Theorem duplicate_source_last_row np predict ty targets maxsize batch tr acc
    u i i' :
  valid_type ty →
  rank_sub np predict ty targets maxsize batch = (tr, inr acc) →
  batch !! i = Some u → batch !! i' = Some u → i < i' →
  let mz := maxsize_or_default maxsize targets in
  let df := scored predict (pairs_of ty batch targets) in
  rows acc.1 !! i = Some (replicate (Z.to_nat mz) NaN) ∧
  rows acc.2 !! i = Some (replicate (Z.to_nat mz) NaN) ∧
  ∃ l, batch !! l = Some u ∧ (∀ j, l < j → batch !! j ≠ Some u) ∧
       ∀ r, r ∈ df → key_of ty r = u →
         let k := group_rank (key_of ty) df r in
         (Z.of_nat k ≤ mz)%Z →
         cell acc.1 l (k - 1) = Some (of_int (item_of ty r)) ∧
         cell acc.2 l (k - 1) = Some (predicted r).
Proof.
  intros Hty Hsub Hi Hi' Hlt mz df. apply rank_sub_inr in Hsub as [_ Hsub].
  apply rank_batch_inv in Hsub as (_ & _ & _ & _ & Hf).
  fold (maxsize_or_default maxsize targets) in Hf. fold mz df in Hf.
  assert (Hdf_scored : ∀ r, r ∈ df → isnan (predicted r) = false)
    by apply dropna_scored.
  assert (Hdf_index : NoDup (Index <$> df))
    by apply dropna_index, table_of_index.
  assert (rows acc.1 !! i = Some (replicate (Z.to_nat mz) NaN) ∧
          rows acc.2 !! i = Some (replicate (Z.to_nat mz) NaN)) as [H1 H2].
  { eapply batch_untouched; [exact Hf|by eapply lookup_lt_Some|].
    intros r _ [Hk Hlast]%index_mapping_lookup.
    apply (Hlast i' Hlt). congruence. }
  split_and!; [done..|].
  destruct (index_mapping_is_Some batch u) as [l Hl];
    [by eapply list_elem_of_lookup_2|].
  apply index_mapping_lookup in Hl as Hl'. destruct Hl' as [Hlu Hlast].
  exists l. split_and!; [done..|].
  intros r Hr Hkey k Hle.
  assert ((r, k) ∈ ranked_of (key_of ty) df mz) as Hrk
    by (by apply elem_of_ranked_of).
  destruct (written_exact _ _ _ _ _ _ Hdf_scored Hdf_index Hf _ Hrk)
    as (l' & Hl' & _ & Hci & Hcs).
  cbn [fst snd] in Hl', Hci, Hcs. rewrite Hkey in Hl'.
  assert (l' = l) as -> by congruence. done.
Qed.

Lemma duplicate_source_last_row_witness :
  let acc := ({| ncols := 2; rows := [[NaN; NaN]; [of_int 10; of_int 10]] |},
              {| ncols := 2; rows := [[NaN; NaN]; [frac 1 2; frac 1 2]] |}) in
  let mz := maxsize_or_default None [10; 20]%Z in
  let df := scored half_predict (pairs_of "movie" [7; 7]%Z [10; 20]%Z) in
  rows acc.1 !! 0 = Some (replicate (Z.to_nat mz) NaN) ∧
  rows acc.2 !! 0 = Some (replicate (Z.to_nat mz) NaN) ∧
  ∃ l, [7; 7]%Z !! l = Some 7%Z ∧ (∀ j, l < j → [7; 7]%Z !! j ≠ Some 7%Z) ∧
       ∀ r, r ∈ df → key_of "movie" r = 7%Z →
         let k := group_rank (key_of "movie") df r in
         (Z.of_nat k ≤ mz)%Z →
         cell acc.1 l (k - 1) = Some (of_int (item_of "movie" r)) ∧
         cell acc.2 l (k - 1) = Some (predicted r).
Proof.
  apply (duplicate_source_last_row NumPy2 half_predict "movie" [10; 20]%Z None
           [7; 7]%Z
           [Predict [(7, 10); (7, 10); (7, 20); (7, 20)]%Z]
           _ 7%Z 0 1).
  - left. reflexivity.
  - vm_compute. reflexivity.
  - reflexivity.
  - reflexivity.
  - lia.
Defined.

(** ** The cast of the ids *)

Lemma bind_trace {A B} (m : M A) (f : A → M B) :
  (bind m f).1 = m.1 ++ match m.2 with inr a => (f a).1 | inl _ => [] end.
Proof.
  destruct m as [t [e|a]]; simpl; [by rewrite app_nil_r|].
  by destruct (f a).
Qed.

Lemma bind_silent {A B} (m : M A) (f : A → M B) :
  m.1 = [] → (∀ a, (f a).1 = []) → (bind m f).1 = [].
Proof.
  intros Hm Hf. rewrite bind_trace, Hm. simpl. by destruct (m.2).
Qed.

Lemma hstack_silent pairs scores : (hstack pairs scores).1 = [].
Proof. unfold hstack. destruct (decide _); [|done]. by destruct pairs. Qed.

Lemma np_full_silent n m : (np_full n m).1 = [].
Proof. unfold np_full. by destruct (m <? 0)%Z. Qed.

Lemma setitem_silent a i j v : (setitem a i j v).1 = [].
Proof.
  unfold setitem. destruct (rows a !! i); [|done]. by destruct (decide _).
Qed.

Lemma write_row_silent mapping key item acc t :
  (write_row mapping key item acc t).1 = [].
Proof.
  unfold write_row. destruct (mapping !! key t.1); [|done].
  apply bind_silent; [apply setitem_silent|]. intros a1.
  apply bind_silent; [apply setitem_silent|]. done.
Qed.

Lemma foldM_write_silent mapping key item l acc :
  (foldM (write_row mapping key item) l acc).1 = [].
Proof.
  revert acc. induction l as [|t l IH]; intros acc; [done|]. simpl.
  apply bind_silent; [apply write_row_silent|]. intros a. apply IH.
Qed.

(** A batch calls [predict] once, on its pair array, whether it returns
    or raises. *)
Lemma rank_batch_trace predict pairs key item sources nt maxsize :
  (rank_batch predict pairs key item sources nt maxsize).1 = [Predict pairs].
Proof.
  unfold rank_batch, call_predict. rewrite bind_trace. simpl.
  apply (f_equal (cons (Predict pairs))).
  apply bind_silent; [apply hstack_silent|]. intros table.
  apply bind_silent; [apply np_full_silent|]. intros a1.
  apply bind_silent; [apply np_full_silent|]. intros a2.
  destruct (dropna table); [done|]. apply foldM_write_silent.
Qed.





(** On NumPy 1 a source id beyond the range is passed to [predict]
    modulo [2^32] and then looked up in the dictionary under that value,
    which is not a key. *)
Example wrapped_source_not_found :
  recommend NumPy1 half_predict "movie" [4294967297]%Z [10; 20]%Z None
  = ([Predict [(1, 10); (1, 20)]%Z], inl KeyError).
Proof. vm_compute. reflexivity. Qed.

(** On NumPy 1 a target id beyond the range is recommended modulo
    [2^32]. *)
Example wrapped_target_recommended :
  recommend NumPy1 half_predict "movie" [1]%Z [4294967297; 20]%Z None
  = ([Predict [(1, 1); (1, 20)]%Z; PbarUpdate 1],
     inr ({| ncols := 2; rows := [[of_int 1; of_int 20]] |},
          {| ncols := 2; rows := [[frac 1 4; frac 1 4]] |})).
Proof. vm_compute. reflexivity. Qed.

(** * Further properties of [recommend] *)

(** ** How a batch fails *)

Lemma bind_inl {A B} (m : M A) (f : A → M B) t e :
  m = (t, inl e) → bind m f = (t, inl e).
Proof. by intros ->. Qed.

Lemma setitem_shape a i j v a' :
  setitem a i j v = ([], inr a') →
  length (rows a') = length (rows a) ∧ ncols a' = ncols a.
Proof. intros (_ & ? & ? & _)%setitem_inv. done. Qed.

Section WriteCases.

Variable mapping : gmap Z nat.
Variables key item : row → Z.
Variables n m : nat.
Hypothesis mapping_lt : ∀ k i, mapping !! k = Some i → i < n.

(** The write loop returns, or raises KeyError at the first row whose key
    is not in the dictionary; it never raises IndexError. *)
Lemma foldM_write_cases l acc :
  length (rows acc.1) = n → length (rows acc.2) = n →
  ncols acc.1 = m → ncols acc.2 = m →
  (∀ t, t ∈ l → t.2 - 1 < m) →
  ((∀ t, t ∈ l → is_Some (mapping !! key t.1)) ∧
   ∃ acc', foldM (write_row mapping key item) l acc = ([], inr acc')) ∨
  ((∃ t, t ∈ l ∧ mapping !! key t.1 = None) ∧
   foldM (write_row mapping key item) l acc = ([], inl KeyError)).
Proof.
  revert acc. induction l as [|t l IH]; intros acc Hn1 Hn2 Hm1 Hm2 Hl.
  { left. split; [by intros t ?%elem_of_nil|]. simpl. eauto. }
  destruct (mapping !! key t.1) as [i|] eqn:Hi.
  2:{ right. split; [exists t; split; [by left|done]|].
      simpl. unfold write_row at 1. by rewrite Hi. }
  destruct (setitem_ok acc.1 i (t.2 - 1) (of_int (item t.1)))
    as [a1 Ha1]; [pose proof (mapping_lt _ _ Hi); lia|
                  rewrite Hm1; apply Hl; by left|].
  destruct (setitem_ok acc.2 i (t.2 - 1) (predicted t.1))
    as [a2 Ha2]; [pose proof (mapping_lt _ _ Hi); lia|
                  rewrite Hm2; apply Hl; by left|].
  apply setitem_shape in Ha1 as Hs1. apply setitem_shape in Ha2 as Hs2.
  assert (write_row mapping key item acc t = ([], inr (a1, a2))) as Hw.
  { unfold write_row. rewrite Hi.
    rewrite (bind_ok _ _ [] a1) by done. simpl.
    by rewrite (bind_ok _ _ [] a2). }
  destruct (IH (a1, a2)) as [[Hall [acc' Hacc']]|[(t0 & Ht0 & Hnone) Herr]];
    simpl; try lia.
  { intros t0 Ht0. apply Hl. by right. }
  - left. split.
    + intros t0 [->|Ht0]%elem_of_cons; [by rewrite Hi|auto].
    + exists acc'. by rewrite (bind_ok _ _ [] _ Hw), Hacc'.
  - right. split; [exists t0; split; [by right|done]|].
    by rewrite (bind_ok _ _ [] _ Hw), Herr.
Qed.

End WriteCases.

Section BatchCases.

Variable predict : list (Z * Z) → list float64.

(** A batch raises ValueError when [predict] returns a wrong number of
    scores, when there is no pair, or when [maxsize] is negative. *)
Lemma rank_batch_value_error pairs key item sources nt maxsize :
  ¬ (length (predict pairs) = length pairs ∧ pairs ≠ [] ∧
     (0 ≤ default (Z.of_nat nt) maxsize)%Z) →
  rank_batch predict pairs key item sources nt maxsize
  = ([Predict pairs], inl ValueError).
Proof.
  intros Hbad. unfold rank_batch, call_predict.
  rewrite (bind_ok _ _ [Predict pairs] (predict pairs)) by done.
  unfold hstack.
  destruct (decide (length (predict pairs) = length pairs)) as [Hlen|];
    [|done].
  destruct pairs as [|p pairs]; [done|].
  rewrite (bind_ok _ _ [] (table_of (p :: pairs) (predict (p :: pairs))))
    by done.
  unfold np_full.
  destruct (Z.ltb_spec (default (Z.of_nat nt) maxsize) 0); [done|].
  destruct Hbad. split_and!; auto.
Qed.

(** Otherwise it is the write loop over the ranked rows. *)
Lemma rank_batch_fold pairs key item sources nt maxsize :
  let mz := default (Z.of_nat nt) maxsize in
  length (predict pairs) = length pairs → pairs ≠ [] → (0 ≤ mz)%Z →
  rank_batch predict pairs key item sources nt maxsize
  = ([Predict pairs],
     (foldM (write_row (index_mapping sources) key item)
        (ranked_of key (scored predict pairs) mz)
        (full (length sources) (Z.to_nat mz),
         full (length sources) (Z.to_nat mz))).2).
Proof.
  intros mz Hlen Hne Hmz. unfold rank_batch, call_predict.
  rewrite (bind_ok _ _ [Predict pairs] (predict pairs)) by done.
  rewrite (bind_ok _ _ [] _ (hstack_ok _ _ Hlen Hne)).
  rewrite (bind_ok _ _ [] _ (np_full_ok _ _ Hmz)).
  rewrite (bind_ok _ _ [] _ (np_full_ok _ _ Hmz)).
  fold (scored predict pairs). fold mz.
  fold (full (length sources) (Z.to_nat mz)).
  fold (ranked_of key (scored predict pairs) mz).
  destruct (scored predict pairs) as [|r df] eqn:Hdf; [done|].
  rewrite <- Hdf. simpl. by rewrite foldM_write_silent.
Qed.

(** A batch returns exactly when [predict] scores every pair, there is a
    pair, [maxsize] is not negative and every ranked row within [maxsize]
    has its key among the sources; it raises KeyError when only the last
    condition fails. *)
Lemma rank_batch_result pairs key item sources nt maxsize :
  let mz := default (Z.of_nat nt) maxsize in
  let ranked := ranked_of key (scored predict pairs) mz in
  length (predict pairs) = length pairs → pairs ≠ [] → (0 ≤ mz)%Z →
  ((∀ t, t ∈ ranked → key t.1 ∈ sources) ∧
   ∃ acc, rank_batch predict pairs key item sources nt maxsize
          = ([Predict pairs], inr acc)) ∨
  ((∃ t, t ∈ ranked ∧ key t.1 ∉ sources) ∧
   rank_batch predict pairs key item sources nt maxsize
   = ([Predict pairs], inl KeyError)).
Proof.
  intros mz ranked Hlen Hne Hmz. rewrite rank_batch_fold by done.
  fold mz ranked.
  assert (∀ k, is_Some (index_mapping sources !! k) ↔ k ∈ sources) as Hkey.
  { intros k. split; [|apply index_mapping_is_Some].
    intros [i [Hi _]%index_mapping_lookup]. by eapply list_elem_of_lookup_2. }
  destruct (foldM_write_cases (index_mapping sources) key item
              (length sources) (Z.to_nat mz) (index_mapping_lt sources) ranked
              (full (length sources) (Z.to_nat mz),
               full (length sources) (Z.to_nat mz)))
    as [[Hall [acc ->]]|[(t & Ht & Hnone) ->]];
    simpl; rewrite ?length_replicate; auto.
  - intros t Ht. pose proof (ranked_rank_pos _ _ _ _ Ht).
    apply elem_of_ranked_of in Ht as (_ & _ & ?). lia.
  - left. split; [|eauto]. intros t Ht. by apply Hkey, Hall.
  - right. split; [|done]. exists t. split; [done|].
    rewrite <- Hkey, Hnone. by intros [? ?].
Qed.

End BatchCases.

(** ** How [recommend] fails *)

Lemma bind_cases {A B} (m : M A) (f : A → M B) t r :
  bind m f = (t, r) →
  (∃ e, m = (t, inl e) ∧ r = inl e) ∨
  (∃ t1 a t2, m = (t1, inr a) ∧ f a = (t2, r) ∧ t = t1 ++ t2).
Proof.
  unfold bind. destruct m as [t1 [e|a]].
  - intros [= <- <-]. left. eauto.
  - destruct (f a) as [t2 r2] eqn:Hf. intros [= <- <-]. right. eauto 6.
Qed.

Lemma vstack_error a b t e : vstack a b = (t, inl e) → e = ValueError.
Proof. unfold vstack. destruct (decide _); [done|]. by intros [= _ <-]. Qed.

(** An exception of the loop is an exception of one of its batches, or
    the ValueError of [np.vstack]. *)
Lemma batch_loop_error sub ids n range : ∀ acc t e,
  batch_loop sub ids n range acc = (t, inl e) →
  (∃ i t', i ∈ range ∧
           sub (slice ids (i * batch_num) (Nat.min ((i + 1) * batch_num) n))
           = (t', inl e)) ∨
  e = ValueError.
Proof.
  induction range as [|i range IH]; intros acc t e; [done|].
  cbn [batch_loop].
  intros [(e1 & Hs & [= ->])|(t1 & s & t2 & Hs & H & ->)]%bind_cases.
  { left. exists i, t. split; [left|done]. }
  apply bind_cases in H as [(e1 & Ha & [= ->])|(t3 & a' & t4 & Ha & H & ->)].
  { right. destruct acc as [a|]; [|done].
    apply bind_cases in Ha as [(e2 & Hv & [= ->])|(? & i1 & ? & _ & Ha & _)];
      [by eapply vstack_error|].
    apply bind_cases in Ha as [(e2 & Hv & [= ->])|(? & i2 & ? & _ & Ha & _)];
      [by eapply vstack_error|done]. }
  apply bind_cases in H as [(e1 & He & _)|(t5 & [] & t6 & _ & H & ->)];
    [done|].
  apply IH in H as [(i' & t' & Hi' & Hs')|?]; [|by right].
  left. exists i', t'. split; [by right|done].
Qed.

Lemma pairs_of_no_targets ty batch : pairs_of ty batch [] = [].
Proof. unfold pairs_of. by destruct (String.eqb ty "movie"). Qed.


Lemma castable_fits np ty batch targets :
  valid_type ty → Forall (fits np) batch → Forall (fits np) targets →
  castable np ty batch targets.
Proof.
  intros Hty Hb Ht. unfold castable.
  rewrite Forall_forall in Hb, Ht. apply Forall_forall.
  intros p (s & t & Hs & Htin & ->)%elem_of_raw_pairs; [|done].
  destruct Hty as [-> | ->]; simpl; auto.
Qed.



Section Failures.

Variable predict : list (Z * Z) → list float64.
Context {np : numpy}.

(** On NumPy 2 the ids that the cast accepts are their own residues, so
    the key of every row of a batch is an id of the batch. *)
Lemma keys_in_batch ty targets batch r :
  np = NumPy2 → valid_type ty → castable np ty batch targets →
  r ∈ scored predict (pairs_of ty batch targets) → key_of ty r ∈ batch.
Proof.
  intros Hnp Hty Hc [Hr _]%elem_of_dropna.
  destruct (table_ids _ _ _ _ _ Hty Hr) as (s & t & Hs & Ht & Hk & _).
  apply castable_iff in Hc as [Hb _];
    [|done|by intros ->; apply elem_of_nil in Hs
          |by intros ->; apply elem_of_nil in Ht].
  rewrite Forall_forall in Hb. specialize (Hb s Hs). rewrite Hnp in Hb.
  by rewrite Hk, fits_NumPy2.
Qed.

(** An exception of a batch: OverflowError when the cast refuses an id,
    before anything else happens; otherwise ValueError, or KeyError,
    which needs an id that the cast changes. *)
Lemma rank_sub_error ty targets maxsize batch t e :
  valid_type ty →
  rank_sub np predict ty targets maxsize batch = (t, inl e) →
  (e = OverflowError ∧ t = [] ∧ ¬ castable np ty batch targets) ∨
  (castable np ty batch targets ∧
   (e = ValueError ∨ (e = KeyError ∧ np = NumPy1))).
Proof.
  intros Hty Hsub.
  destruct (decide (castable np ty batch targets)) as [Hc|Hc].
  2:{ rewrite rank_sub_overflow in Hsub by done. left.
      by injection Hsub as <- <-. }
  right. split; [done|]. rewrite rank_sub_eq in Hsub by done.
  destruct (decide (length (predict (pairs_of ty batch targets))
                    = length (pairs_of ty batch targets) ∧
                    pairs_of ty batch targets ≠ [] ∧
                    (0 ≤ default (Z.of_nat (length targets)) maxsize)%Z))
    as [(Hlen & Hne & Hmz)|Hbad].
  - destruct (rank_batch_result predict (pairs_of ty batch targets)
                (key_of ty) (item_of ty) batch (length targets) maxsize
                Hlen Hne Hmz) as [[_ [acc Hacc]]|[(r & Hr & Hnot) Herr]];
      [congruence|].
    right. split; [congruence|].
    assert (np = NumPy1 ∨ np = NumPy2) as [?|Hnp] by (destruct np; auto);
      [done|].
    destruct Hnot. apply elem_of_ranked_of in Hr as (Hr & _).
    by eapply keys_in_batch.
  - rewrite rank_batch_value_error in Hsub by done. left. congruence.
Qed.

(** With a non-empty list of sources, an exception of the first batch
    is the outcome of [recommend]. *)
Lemma recommend_first_batch ty users movies maxsize t e :
  valid_type ty → source_ids ty users movies ≠ [] →
  rank_sub np predict ty (target_ids ty users movies) maxsize
    (chunk (source_ids ty users movies) 0) = (t, inl e) →
  recommend np predict ty users movies maxsize = (t, inl e).
Proof.
  intros Hty Hsrc Hsub. rewrite recommend_valid by done.
  pose proof (ceil_div_spec (length (source_ids ty users movies))) as Hc.
  destruct (ceil_div (length (source_ids ty users movies)) batch_num)
    as [|k] eqn:Hk.
  { destruct (source_ids ty users movies); [done|]. simpl in Hc. lia. }
  simpl seq. cbn [batch_loop].
  fold (chunk (source_ids ty users movies) 0). rewrite Hsub. done.
Qed.

End Failures.

Lemma valid_type_dec ty : valid_type ty ∨ (ty ≠ "movie" ∧ ty ≠ "user").
Proof.
  destruct (String.eqb_spec ty "movie"); [by left; left|].
  destruct (String.eqb_spec ty "user"); [by left; right|]. by right.
Qed.

Lemma recommend_invalid {np} predict ty users movies maxsize :
  ty ≠ "movie" → ty ≠ "user" →
  recommend np predict ty users movies maxsize = ([], inl ValueError).
Proof.
  intros H1%String.eqb_neq H2%String.eqb_neq. unfold recommend.
  by rewrite H1, H2.
Qed.

(** X1: the exceptions of [recommend] are ValueError, KeyError,
    OverflowError and AttributeError: an index is never out of the
    bounds of the two arrays and the assertions on the number of rows
    never fail.  OverflowError needs an id that the cast refuses,
    KeyError a NumPy that lets an id wrap around, and AttributeError an
    empty list of sources. *)
Theorem recommend_exceptions np predict ty users movies maxsize tr e :
  recommend np predict ty users movies maxsize = (tr, inl e) →
  let src := source_ids ty users movies in
  let tgt := target_ids ty users movies in
  e = ValueError ∨
  (e = KeyError ∧ np = NumPy1) ∨
  (e = OverflowError ∧ valid_type ty ∧
   ¬ (Forall (fits np) src ∧ Forall (fits np) tgt)) ∨
  (e = AttributeError ∧ valid_type ty ∧ src = []).
Proof.
  intros Hrec src tgt.
  destruct (valid_type_dec ty) as [Hty|[H1 H2]].
  2:{ rewrite recommend_invalid in Hrec by done.
      injection Hrec as _ <-. by left. }
  rewrite recommend_valid in Hrec by done. fold src tgt in Hrec.
  apply bind_cases in Hrec
    as [(e1 & Hloop & [= ->])|(t1 & acc & t2 & Hloop & Hchk & ->)].
  { apply batch_loop_error in Hloop as [(i & t' & Hi & Hsub) | ->];
      [|by left].
    fold (chunk src i) in Hsub.
    apply rank_sub_error in Hsub
      as [(-> & _ & Hc)|[_ [-> | [-> ->]]]]; auto.
    right; right; left. split_and!; [done..|].
    intros [Hs Ht]. apply Hc, castable_fits; [done| |done].
    by apply chunk_Forall. }
  eapply batch_loop_inv in Hloop as [Hst _];
    [|apply rank_sub_returns|done].
  unfold stacked in Hst. rewrite Nat.add_0_l in Hst.
  pose proof (ceil_div_spec (length src)) as Hc.
  unfold check_rows in Hchk. destruct acc as [a|].
  - destruct Hst as (_ & Hs1 & Hs2 & _).
    apply (f_equal fst) in Hs1, Hs2. unfold shape in Hs1, Hs2.
    cbn [fst] in Hs1, Hs2.
    rewrite decide_True in Hchk by (split; blia). done.
  - injection Hchk as _ <-. right; right; right. split_and!; auto.
    apply length_zero_iff_nil. blia.
Qed.

Lemma recommend_exceptions_witness :
  let src := source_ids "movie" [4294967297]%Z [10; 20]%Z in
  let tgt := target_ids "movie" [4294967297]%Z [10; 20]%Z in
  KeyError = ValueError ∨
  (KeyError = KeyError ∧ NumPy1 = NumPy1) ∨
  (KeyError = OverflowError ∧ valid_type "movie" ∧
   ¬ (Forall (fits NumPy1) src ∧ Forall (fits NumPy1) tgt)) ∨
  (KeyError = AttributeError ∧ valid_type "movie" ∧ src = []).
Proof.
  apply (recommend_exceptions NumPy1 half_predict "movie" [4294967297]%Z
           [10; 20]%Z None [Predict [(1, 10); (1, 20)]%Z]).
  vm_compute. reflexivity.
Defined.


(** X3: the first batch, for a valid direction and a non-empty
    list of sources.  When the cast refuses one of its ids, [recommend]
    raises OverflowError and [predict] is never called.  When the cast
    accepts them, [recommend] raises ValueError after one call of
    [predict] and before any progress update if the list of targets is
    empty, if [maxsize] is negative, or if [predict] returns a number
    of scores other than the number of pairs. *)
Theorem recommend_value_error np predict ty users movies maxsize :
  valid_type ty →
  let src := source_ids ty users movies in
  let tgt := target_ids ty users movies in
  let pairs := pairs_of ty (chunk src 0) tgt in
  src ≠ [] →
  (¬ castable np ty (chunk src 0) tgt →
   recommend np predict ty users movies maxsize = ([], inl OverflowError)) ∧
  (castable np ty (chunk src 0) tgt →
   tgt = [] ∨ (maxsize_or_default maxsize tgt < 0)%Z ∨
   length (predict pairs) ≠ length pairs →
   recommend np predict ty users movies maxsize
   = ([Predict pairs], inl ValueError)).
Proof.
  intros Hty src tgt pairs Hsrc. split.
  - intros Hc. apply recommend_first_batch; auto. fold src tgt.
    by apply rank_sub_overflow.
  - intros Hc Hbad. apply recommend_first_batch; auto. fold src tgt.
    rewrite rank_sub_eq by done. fold pairs. apply rank_batch_value_error.
    intros (Hlen & Hne & Hmz). destruct Hbad as [Htgt|[Hneg|Hcount]].
    + apply Hne. unfold pairs. rewrite Htgt. apply pairs_of_no_targets.
    + unfold maxsize_or_default in Hneg. lia.
    + done.
Qed.

Lemma recommend_value_error_witness :
  let src := source_ids "user" [1; 2]%Z [10; 20; 30]%Z in
  let tgt := target_ids "user" [1; 2]%Z [10; 20; 30]%Z in
  (¬ castable NumPy2 "user" (chunk src 0) tgt →
   recommend NumPy2 scenario_predict "user" [1; 2]%Z [10; 20; 30]%Z
     (Some (-1)%Z) = ([], inl OverflowError)) ∧
  recommend NumPy2 scenario_predict "user" [1; 2]%Z [10; 20; 30]%Z
    (Some (-1)%Z)
  = ([Predict (pairs_of "user" (chunk src 0) tgt)], inl ValueError).
Proof.
  destruct (recommend_value_error NumPy2 scenario_predict "user" [1; 2]%Z
              [10; 20; 30]%Z (Some (-1)%Z)) as [Ho Hv];
    [right; reflexivity|discriminate|].
  split; [exact Ho|]. apply Hv.
  - apply (bool_decide_unpack _). vm_compute. reflexivity.
  - right. left. reflexivity.
Defined.



(** ** The calls of [predict] *)

Lemma pairs_of_length ty batch targets :
  length (pairs_of ty batch targets) = length targets * length batch.
Proof.
  assert (∀ (f : Z → Z * Z) (l : list Z), length (l ≫= λ x, [f x]) = length l)
    as Hinner.
  { intros f l. induction l as [|x l IH]; [done|].
    rewrite bind_cons. simpl. by rewrite IH. }
  unfold pairs_of. destruct (String.eqb ty "movie");
    induction targets as [|t targets IH]; try done;
    rewrite bind_cons, length_app, IH, (Hinner (λ x, _)); simpl; lia.
Qed.

Lemma chunk_length_le ids k : length (chunk ids k) ≤ batch_num.
Proof. rewrite chunk_length. blia. Qed.

Lemma check_rows_silent acc n : (check_rows acc n).1 = [].
Proof. unfold check_rows. destruct acc; [|done]. by destruct (decide _). Qed.

Lemma bind_event {A B} (m : M A) (f : A → M B) e :
  e ∈ (bind m f).1 → e ∈ m.1 ∨ ∃ a, m.2 = inr a ∧ e ∈ (f a).1.
Proof.
  rewrite bind_trace. intros [?|He]%elem_of_app; [by left|].
  destruct (m.2) as [?|a]; [by apply elem_of_nil in He|]. right. eauto.
Qed.

Lemma vstack_silent a b : (vstack a b).1 = [].
Proof. unfold vstack. by destruct (decide _). Qed.

(** The events of the loop are those of its batches and progress
    updates. *)
Lemma batch_loop_events sub ids range : ∀ acc e,
  e ∈ (batch_loop sub ids (length ids) range acc).1 →
  (∃ i, i ∈ range ∧ e ∈ (sub (chunk ids i)).1) ∨ ∃ k, e = PbarUpdate k.
Proof.
  induction range as [|i range IH]; intros acc e.
  { simpl. by intros ?%elem_of_nil. }
  cbn [batch_loop]. fold (chunk ids i).
  intros [He|(s & _ & He)]%bind_event.
  { left. exists i. split; [by left|done]. }
  apply bind_event in He as [He|(a' & _ & He)].
  { destruct acc as [a|]; [|by apply elem_of_nil in He].
    rewrite bind_silent in He; [by apply elem_of_nil in He|..].
    - apply vstack_silent.
    - intros i1. apply bind_silent; [apply vstack_silent|done]. }
  apply bind_event in He as [He|([] & _ & He)].
  { apply list_elem_of_singleton in He. right. eauto. }
  apply IH in He as [(i' & Hi' & He)|?]; [|by right].
  left. exists i'. split; [by right|done].
Qed.

(** A batch calls [predict] at most once, on its pair array. *)
Lemma rank_sub_events {np} predict ty targets maxsize batch e :
  e ∈ (rank_sub np predict ty targets maxsize batch).1 →
  e = Predict (pairs_of ty batch targets).
Proof.
  destruct (decide (castable np ty batch targets)) as [Hc|Hc].
  - rewrite rank_sub_eq, rank_batch_trace by done.
    by intros ->%list_elem_of_singleton.
  - rewrite rank_sub_overflow by done. by intros ?%elem_of_nil.
Qed.

(** X8: whether it returns or raises, [recommend] never hands
    [predict] more than 100 sources at a time.  Every pair array that is
    passed to [predict] is the cross product of one chunk of at most 100
    sources with all the targets, and so has at most 100 times the
    number of targets entries. *)
Theorem predict_call_bound np predict ty users movies maxsize p :
  Predict p ∈ (recommend np predict ty users movies maxsize).1 →
  let src := source_ids ty users movies in
  let tgt := target_ids ty users movies in
  ∃ b, b ∈ chunks src ∧ p = pairs_of ty b tgt ∧
       length b ≤ batch_num ∧
       length p = length tgt * length b ∧
       length p ≤ batch_num * length tgt.
Proof.
  intros Hp src tgt.
  assert (valid_type ty) as Hty.
  { destruct (String.eqb_spec ty "movie"); [by left|].
    destruct (String.eqb_spec ty "user"); [by right|].
    unfold recommend in Hp.
    rewrite (proj2 (String.eqb_neq _ _)), (proj2 (String.eqb_neq _ _)) in Hp
      by done.
    by apply elem_of_nil in Hp. }
  rewrite recommend_valid in Hp by done. fold src tgt in Hp.
  apply bind_event in Hp as [Hp|(acc & _ & Hp)].
  2:{ rewrite check_rows_silent in Hp. by apply elem_of_nil in Hp. }
  apply batch_loop_events in Hp as [(i & Hi & Hp)|[k ?]]; [|done].
  apply rank_sub_events in Hp as [= ->].
  exists (chunk src i). pose proof (chunk_length_le src i) as Hle.
  split_and!; auto.
  - unfold chunks. apply list_elem_of_fmap. eauto.
  - apply pairs_of_length.
  - rewrite pairs_of_length. nia.
Qed.

Lemma predict_call_bound_witness :
  let src := source_ids "movie" [4294967297]%Z [10; 20]%Z in
  let tgt := target_ids "movie" [4294967297]%Z [10; 20]%Z in
  ∃ b, b ∈ chunks src ∧ [(1, 10); (1, 20)]%Z = pairs_of "movie" b tgt ∧
       length b ≤ batch_num ∧
       length [(1, 10); (1, 20)]%Z = length tgt * length b ∧
       length [(1, 10); (1, 20)]%Z ≤ batch_num * length tgt.
Proof.
  apply (predict_call_bound NumPy1 half_predict "movie" [4294967297]%Z [10; 20]%Z
           None [(1, 10); (1, 20)]%Z).
  vm_compute. left.
Defined.

Lemma predict_calls_chunks (f : list Z → list (Z * Z)) (cs : list (list Z)) :
  predict_calls (b ← cs; [Predict (f b); PbarUpdate (length b)]) = f <$> cs ∧
  progress (b ← cs; [Predict (f b); PbarUpdate (length b)])
  = length (concat cs).
Proof.
  induction cs as [|b cs [IH1 IH2]]; [done|].
  rewrite bind_cons. unfold predict_calls, progress in *.
  rewrite omap_app, sum_list_with_app, IH1, IH2, fmap_cons, concat_cons,
    length_app.
  simpl. split; [done|lia].
Qed.

Lemma pairs_total ty targets (cs : list (list Z)) :
  sum_list (length <$> ((λ b, pairs_of ty b targets) <$> cs))
  = length (concat cs) * length targets.
Proof.
  induction cs as [|b cs IH]; [done|].
  rewrite !fmap_cons, concat_cons, length_app. simpl.
  rewrite IH, pairs_of_length. lia.
Qed.

(** X9: a call of [recommend] that returns has called [predict]
    once per chunk of 100 sources, [ceil(n / 100)] times in all, on the
    chunks' pair arrays in order; together the arrays have one entry for
    every combination of a source and a target, and the progress updates
    add up to the number of sources. *)
Theorem recommend_calls np predict ty users movies maxsize tr res :
  valid_type ty →
  recommend np predict ty users movies maxsize = (tr, inr res) →
  let src := source_ids ty users movies in
  let tgt := target_ids ty users movies in
  predict_calls tr = (λ b, pairs_of ty b tgt) <$> chunks src ∧
  length (predict_calls tr) = ceil_div (length src) batch_num ∧
  sum_list (length <$> predict_calls tr) = length src * length tgt ∧
  progress tr = length src.
Proof.
  intros Hty Hrec src tgt.
  destruct (recommend_inv _ _ _ _ _ _ _ Hty Hrec) as (_ & _ & _ & -> & _).
  fold src tgt. rewrite chunks_trace. unfold batch_events.
  destruct (predict_calls_chunks (λ b, pairs_of ty b tgt) (chunks src))
    as [Hcalls Hprog].
  change (b ← chunks src; [Predict (pairs_of ty b tgt)] ++ [PbarUpdate (length b)])
    with (b ← chunks src; [Predict (pairs_of ty b tgt); PbarUpdate (length b)]).
  rewrite Hcalls, Hprog, concat_chunks. split_and!; auto.
  - unfold chunks. by rewrite !length_fmap, length_seq.
  - by rewrite pairs_total, concat_chunks.
Qed.

Lemma recommend_calls_witness :
  let src := source_ids "movie" [1; 2]%Z [10; 20; 30]%Z in
  let tgt := target_ids "movie" [1; 2]%Z [10; 20; 30]%Z in
  predict_calls scenario_trace = (λ b, pairs_of "movie" b tgt) <$> chunks src ∧
  length (predict_calls scenario_trace) = ceil_div (length src) batch_num ∧
  sum_list (length <$> predict_calls scenario_trace)
  = length src * length tgt ∧
  progress scenario_trace = length src.
Proof.
  apply (recommend_calls NumPy2 scenario_predict "movie" [1; 2]%Z [10; 20; 30]%Z
           (Some 2%Z) scenario_trace (scenario_items, scenario_scores)).
  - left. reflexivity.
  - vm_compute. reflexivity.
Defined.

(** ** How many values a row holds, and which *)




(** X6: the values of a row are the best of their source.  In
    a returned result, a value in column [j] of the row of a source is
    at least the score of every scored pair of that source ranked after
    [j + 1], and so of every pair left out because its rank is beyond
    [maxsize]. *)
Theorem recommend_top_scores np predict ty users movies maxsize tr items scores
    i u j y :
  valid_type ty →
  recommend np predict ty users movies maxsize = (tr, inr (items, scores)) →
  let src := source_ids ty users movies in
  let tgt := target_ids ty users movies in
  let mz := maxsize_or_default maxsize tgt in
  let df := scored predict (pairs_of ty (chunk src (i `div` batch_num)) tgt) in
  src !! i = Some u →
  cell scores i j = Some y → y ≠ NaN →
  ∀ r, r ∈ df → key_of ty r = u →
    (S j < group_rank (key_of ty) df r → f_ge y (predicted r) = true) ∧
    ((mz < Z.of_nat (group_rank (key_of ty) df r))%Z →
     f_ge y (predicted r) = true).
Proof.
  intros Hty Hrec src tgt mz df Hu Hy Hnan r Hr Hkey.
  destruct (recommend_row _ _ _ _ _ _ _ i u Hty Hrec Hu)
    as (s & _ & Hb & _ & Hr2 & Hmz & Hf).
  fold src tgt mz in Hb, Hf. fold df in Hf. cbn [fst snd] in Hr2.
  rewrite (cell_lift _ _ _ _ j Hr2) in Hy.
  destruct (batch_origin _ _ _ _ _ _ Hf _ _ _ Hy Hnan)
    as (t & Ht & Hk & Hj & _ & Hs).
  pose proof (ranked_rank_pos _ _ _ _ Ht) as Hpos.
  apply elem_of_ranked_of in Ht as (Ht & Hrk & Hle).
  apply index_mapping_lookup in Hk as [Hk _].
  assert (key_of ty t.1 = key_of ty r) as Hsame by congruence.
  assert (y = predicted t.1) as -> by congruence.
  assert (group_rank (key_of ty) df t.1 < group_rank (key_of ty) df r →
          f_ge (predicted t.1) (predicted r) = true) as Hge.
  { apply (group_rank_ge (key_of ty) df); auto.
    - apply dropna_scored.
    - apply dropna_index, table_of_index. }
  split; intros Hlt; apply Hge; lia.
Qed.

Lemma recommend_top_scores_witness :
  let df := scored scenario_predict
              (pairs_of "movie"
                 (chunk (source_ids "movie" [1; 2]%Z [10; 20; 30]%Z)
                    (1 `div` batch_num))
                 (target_ids "movie" [1; 2]%Z [10; 20; 30]%Z)) in
  (S 1 < group_rank (key_of "movie") df tie_second →
   f_ge (frac 1 10) (predicted tie_second) = true) ∧
  ((maxsize_or_default (Some 2%Z)
      (target_ids "movie" [1; 2]%Z [10; 20; 30]%Z)
    < Z.of_nat (group_rank (key_of "movie") df tie_second))%Z →
   f_ge (frac 1 10) (predicted tie_second) = true).
Proof.
  apply (recommend_top_scores NumPy2 scenario_predict "movie" [1; 2]%Z
           [10; 20; 30]%Z (Some 2%Z) scenario_trace scenario_items
           scenario_scores 1 2%Z 1 (frac 1 10)).
  - left. reflexivity.
  - vm_compute. reflexivity.
  - reflexivity.
  - reflexivity.
  - discriminate.
  - apply (list_elem_of_lookup_2 _ 3). vm_compute. reflexivity.
  - reflexivity.
Defined.

(** ** Asking for fewer recommendations *)

Section Prefix.

Variables key item : row → Z.
Variable sources : list Z.
Variable df : list row.
Variables mz mz' : Z.
Variables acc acc' : ndarray * ndarray.
Hypothesis df_scored : ∀ r, r ∈ df → isnan (predicted r) = false.
Hypothesis df_index : NoDup (Index <$> df).
Hypothesis mz_le : (0 ≤ mz ≤ mz')%Z.
Hypothesis acc_filled :
  filled (index_mapping sources) key item (length sources) (Z.to_nat mz)
    (ranked_of key df mz) acc.
Hypothesis acc'_filled :
  filled (index_mapping sources) key item (length sources) (Z.to_nat mz')
    (ranked_of key df mz') acc'.



End Prefix.



(** ** The two directions agree *)

Lemma prod_swap_swap (p : list (Z * Z)) : prod_swap <$> (prod_swap <$> p) = p.
Proof.
  rewrite <- list_fmap_compose. rewrite <- (list_fmap_id p) at 2.
  apply list_fmap_ext. by intros _ [] _.
Qed.

Lemma filter_fmap_iff {A B} (f : A → B) (P : B → Prop) (Q : A → Prop)
    `{∀ y, Decision (P y)} `{∀ x, Decision (Q x)} (l : list A) :
  (∀ x, P (f x) ↔ Q x) → filter P (f <$> l) = f <$> filter Q l.
Proof.
  intros HPQ. induction l as [|x l IH]; [done|].
  rewrite fmap_cons, !filter_cons, IH.
  destruct (decide (P (f x))) as [HP|HP], (decide (Q x)) as [HQ|HQ];
    try done; by apply HPQ in HP || apply HPQ in HQ.
Qed.

Lemma imap_zip_swap (F G : nat → Z * Z * float64 → row) pairs scores :
  (∀ i u m s, G i ((m, u), s) = swap_row (F i ((u, m), s))) →
  imap G (zip (prod_swap <$> pairs) scores)
  = swap_row <$> imap F (zip pairs scores).
Proof.
  revert scores F G. induction pairs as [|[u m] pairs IH];
    intros scores F G HG; [done|].
  destruct scores as [|s scores]; [done|]. simpl. f_equal; [apply HG|].
  apply IH. intros i u' m' s'. apply HG.
Qed.

Lemma table_of_swap pairs scores :
  table_of (prod_swap <$> pairs) scores = swap_row <$> table_of pairs scores.
Proof. unfold table_of. by apply imap_zip_swap. Qed.

Lemma dropna_swap df : dropna (swap_row <$> df) = swap_row <$> dropna df.
Proof. unfold dropna. by apply filter_fmap_iff. Qed.

Lemma scored_swap predict pairs :
  scored (swapped predict) (prod_swap <$> pairs)
  = swap_row <$> scored predict pairs.
Proof.
  unfold scored, swapped. by rewrite prod_swap_swap, table_of_swap, dropna_swap.
Qed.

Lemma group_rank_swap df r :
  group_rank userId (swap_row <$> df) (swap_row r) = group_rank movieId df r.
Proof.
  unfold group_rank. f_equal.
  rewrite (filter_fmap_iff swap_row _
             (λ a, movieId a = movieId r ∧ outranks a r = true));
    [by rewrite length_fmap|done].
Qed.

Lemma ranked_of_swap df mz :
  ranked_of userId (swap_row <$> df) mz
  = prod_map swap_row id <$> ranked_of movieId df mz.
Proof.
  unfold ranked_of, rank_first.
  rewrite <- (filter_fmap_iff (prod_map swap_row id)
                (λ t, (Z.of_nat t.2 ≤ mz)%Z) (λ t, (Z.of_nat t.2 ≤ mz)%Z))
    by done.
  f_equal. rewrite <- !list_fmap_compose. apply list_fmap_ext.
  intros _ r _. simpl. unfold prod_map. simpl. by rewrite group_rank_swap.
Qed.

Lemma bind_ext {A B} (m : M A) (f g : A → M B) :
  (∀ a, f a = g a) → bind m f = bind m g.
Proof. intros Hfg. destruct m as [t [e|a]]; simpl; [done|]. by rewrite Hfg. Qed.

Lemma foldM_write_swap mapping l acc :
  foldM (write_row mapping userId movieId) (prod_map swap_row id <$> l) acc
  = foldM (write_row mapping movieId userId) l acc.
Proof.
  revert acc. induction l as [|[r k] l IH]; intros acc; [done|].
  rewrite fmap_cons. cbn [foldM]. by apply bind_ext.
Qed.

Lemma swap_trace_bind {A B} (m : M A) (f : A → M B) :
  swap_trace (bind m f) = bind (swap_trace m) (λ a, swap_trace (f a)).
Proof.
  destruct m as [t [e|a]]; [done|]. unfold swap_trace. simpl.
  destruct (f a) as [t' r]. simpl. by rewrite fmap_app.
Qed.

Lemma swap_trace_silent {A} (m : M A) : m.1 = [] → swap_trace m = m.
Proof. destruct m as [t r]. simpl. by intros ->. Qed.

Lemma swap_event_swap (tr : list event) : swap_event <$> (swap_event <$> tr) = tr.
Proof.
  rewrite <- list_fmap_compose. rewrite <- (list_fmap_id tr) at 2.
  apply list_fmap_ext. intros _ [p|k] _; simpl; [|done].
  by rewrite prod_swap_swap.
Qed.

Lemma rank_batch_swap predict pairs sources nt maxsize :
  rank_batch (swapped predict) (prod_swap <$> pairs) userId movieId
    sources nt maxsize
  = swap_trace (rank_batch predict pairs movieId userId sources nt maxsize).
Proof.
  set (mz := default (Z.of_nat nt) maxsize).
  destruct (decide (length (predict pairs) = length pairs ∧ pairs ≠ [] ∧
                    (0 ≤ mz)%Z)) as [(Hlen & Hne & Hmz)|Hbad].
  - rewrite !rank_batch_fold; unfold swapped;
      rewrite ?prod_swap_swap, ?length_fmap; try done.
    + fold (swapped predict) mz. rewrite scored_swap, ranked_of_swap.
      by rewrite foldM_write_swap.
    + by destruct pairs.
  - rewrite !rank_batch_value_error; [done|done|]. unfold swapped.
    rewrite prod_swap_swap, length_fmap. fold mz.
    intros (Hlen & Hne & Hmz). apply Hbad. by destruct pairs.
Qed.

Lemma raw_pairs_swap (outer inner : list Z) :
  (m ← outer; u ← inner; [(u, m)])
  = prod_swap <$> (u ← outer; m ← inner; [(u, m)]).
Proof.
  induction outer as [|x outer IH]; [done|].
  cbn [mbind list_bind]. rewrite fmap_app, <- IH. f_equal.
  clear. induction inner as [|y inner IH]; [done|].
  cbn [mbind list_bind]. by rewrite fmap_app, <- IH.
Qed.

(** The cast treats the two columns alike. *)
Lemma np_array_swap np pairs :
  np_array np (prod_swap <$> pairs)
  = if decide (Forall (λ p, fits np p.1 ∧ fits np p.2) pairs)
    then ret (prod_swap <$> ((λ p, (wrap32 p.1, wrap32 p.2)) <$> pairs))
    else raise OverflowError.
Proof.
  rewrite np_array_spec.
  destruct (decide (Forall _ pairs)) as [Hp|Hp].
  - rewrite decide_True.
    + f_equal. rewrite <- !list_fmap_compose.
      apply list_fmap_ext. by intros _ [] _.
    + apply Forall_fmap. eapply Forall_impl; [exact Hp|].
      by intros [] [].
  - rewrite decide_False; [done|]. intros Hs. apply Hp.
    apply Forall_fmap in Hs. eapply Forall_impl; [exact Hs|].
    by intros [] [].
Qed.

Lemma recommend_for_swap {np} predict batch targets maxsize :
  _recommend_for_users np (swapped predict) batch targets maxsize
  = swap_trace (_recommend_for_movies np predict batch targets maxsize).
Proof.
  rewrite _recommend_for_users_eq, _recommend_for_movies_eq, raw_pairs_swap.
  rewrite np_array_swap, np_array_spec.
  destruct (decide (Forall _ _)) as [Hp|Hp]; [|done].
  rewrite !bind_ret_l. apply rank_batch_swap.
Qed.

Lemma batch_loop_swap (sub sub' : list Z → M (ndarray * ndarray)) ids num :
  (∀ b, sub b = swap_trace (sub' b)) →
  ∀ range acc,
    batch_loop sub ids num range acc
    = swap_trace (batch_loop sub' ids num range acc).
Proof.
  intros Hsub. induction range as [|i range IH]; intros acc; [done|].
  cbn [batch_loop]. rewrite swap_trace_bind, Hsub. apply bind_ext. intros s.
  rewrite swap_trace_bind, swap_trace_silent.
  2: { destruct acc as [a|]; [|done].
       apply bind_silent; [apply vstack_silent|].
       intros i1. apply bind_silent; [apply vstack_silent|done]. }
  apply bind_ext. intros acc'. rewrite swap_trace_bind. apply bind_ext.
  intros _. apply IH.
Qed.

Lemma swap_trace_swap {A} (m : M A) : swap_trace (swap_trace m) = m.
Proof. destruct m as [t r]. unfold swap_trace. simpl. by rewrite swap_event_swap. Qed.

(** X10: the two directions are one computation.  Recommending users
    for movies is recommending "movies" for "users" with the two lists
    exchanged and a [predict] that reads each pair reversed: the same
    matrices or the same exception, and the same calls of [predict] up
    to the order of the two ids of every pair. *)
Theorem recommend_directions_agree np predict users movies maxsize :
  recommend np predict "user" users movies maxsize
  = swap_trace (recommend np (swapped predict) "movie" movies users maxsize).
Proof.
  unfold recommend. cbn [String.eqb Ascii.eqb Bool.eqb].
  rewrite swap_trace_bind.
  rewrite <- (batch_loop_swap
                (λ b, _recommend_for_movies np predict b users maxsize)).
  - apply bind_ext. intros acc. symmetry. apply swap_trace_silent.
    apply check_rows_silent.
  - intros b. by rewrite recommend_for_swap, swap_trace_swap.
Qed.

(** ** The shape of a result *)

(** X11: whatever [predict] returns, a result that [recommend]
    returns has one row per source and [maxsize] columns (the number of
    targets when [maxsize] is unset) in both matrices, every row of
    either matrix is exactly that wide, and [maxsize] was not
    negative. *)
Theorem recommend_result_shape np predict ty users movies maxsize tr
    items scores :
  valid_type ty →
  recommend np predict ty users movies maxsize = (tr, inr (items, scores)) →
  let src := source_ids ty users movies in
  let mz := maxsize_or_default maxsize (target_ids ty users movies) in
  (0 ≤ mz)%Z ∧
  shape items = (length src, Z.to_nat mz) ∧
  shape scores = (length src, Z.to_nat mz) ∧
  Forall (λ r, length r = Z.to_nat mz) (rows items) ∧
  Forall (λ r, length r = Z.to_nat mz) (rows scores).
Proof.
  intros Hty Hrec src mz.
  destruct (recommend_inv _ _ _ _ _ _ _ Hty Hrec)
    as (Hsrc & H1 & H2 & _ & _).
  cbn [fst snd] in H1, H2. fold src mz in H1, H2.
  assert (∀ i, i < length src →
            (0 ≤ mz)%Z ∧
            (∀ r, rows items !! i = Some r → length r = Z.to_nat mz) ∧
            (∀ r, rows scores !! i = Some r → length r = Z.to_nat mz))
    as Hrow.
  { intros i Hi. destruct (lookup_lt_is_Some_2 src i Hi) as [u Hu].
    destruct (recommend_row _ _ _ _ _ _ _ i u Hty Hrec Hu)
      as (s & _ & _ & Hr1 & Hr2 & Hmz & Hf).
    cbn [fst snd] in Hr1, Hr2. fold mz in Hmz, Hf.
    pose proof (filled_wf1 _ _ _ _ _ _ _ Hf) as Hwf1.
    pose proof (filled_wf2 _ _ _ _ _ _ _ Hf) as Hwf2.
    pose proof (f_equal snd (filled_shape1 _ _ _ _ _ _ _ Hf)) as Hm1.
    pose proof (f_equal snd (filled_shape2 _ _ _ _ _ _ _ Hf)) as Hm2.
    unfold shape in Hm1, Hm2. cbn [fst snd] in Hm1, Hm2.
    unfold wf in Hwf1, Hwf2. rewrite Forall_lookup in Hwf1, Hwf2.
    split; [done|]. split; intros r Hr.
    - rewrite Hr1 in Hr. apply Hwf1 in Hr. congruence.
    - rewrite Hr2 in Hr. apply Hwf2 in Hr. congruence. }
  split.
  { apply (Hrow 0).
    destruct (decide (length src = 0)) as [H0%nil_length_inv|]; [done|lia]. }
  split; [done|]. split; [done|].
  apply (f_equal fst) in H1, H2. unfold shape in H1, H2.
  cbn [fst snd] in H1, H2.
  split; apply Forall_lookup; intros i r Hr;
    pose proof (lookup_lt_Some _ _ _ Hr) as Hi;
    destruct (Hrow i) as (_ & Hi1 & Hi2); [lia|auto|lia|auto].
Qed.

Lemma recommend_result_shape_witness :
  let src := source_ids "movie" [1; 2]%Z [10; 20; 30]%Z in
  let mz := maxsize_or_default (Some 2%Z)
              (target_ids "movie" [1; 2]%Z [10; 20; 30]%Z) in
  (0 ≤ mz)%Z ∧
  shape scenario_items = (length src, Z.to_nat mz) ∧
  shape scenario_scores = (length src, Z.to_nat mz) ∧
  Forall (λ r, length r = Z.to_nat mz) (rows scenario_items) ∧
  Forall (λ r, length r = Z.to_nat mz) (rows scenario_scores).
Proof.
  apply (recommend_result_shape NumPy2 scenario_predict "movie" [1; 2]%Z
           [10; 20; 30]%Z (Some 2%Z) scenario_trace).
  - left. reflexivity.
  - vm_compute. reflexivity.
Defined.

(** ** No target twice *)

Lemma NoDup_cross (outer inner : list Z) (mk : Z → Z → Z * Z) :
  (∀ a b a' b', mk a b = mk a' b' → wrap32 a = wrap32 a' ∧ wrap32 b = wrap32 b') →
  NoDup (wrap32 <$> outer) → NoDup (wrap32 <$> inner) →
  NoDup (a ← outer; b ← inner; [mk a b]).
Proof.
  intros Hmk Ho Hi. apply NoDup_bind.
  - intros a a' p Ha Ha' (b & ->%list_elem_of_singleton & _)%list_elem_of_bind
      (b' & Hp%list_elem_of_singleton & _)%list_elem_of_bind.
    apply Hmk in Hp as [Hp _]. by apply (NoDup_fmap_inj_on wrap32 outer).
  - intros a _. apply NoDup_bind.
    + intros b b' p Hb Hb' ->%list_elem_of_singleton Hp%list_elem_of_singleton.
      apply Hmk in Hp as [_ Hp]. by apply (NoDup_fmap_inj_on wrap32 inner).
    + intros b _. apply NoDup_singleton.
    + by eapply NoDup_fmap_1.
  - by eapply NoDup_fmap_1.
Qed.

Lemma pairs_of_NoDup ty batch targets :
  NoDup (wrap32 <$> batch) → NoDup (wrap32 <$> targets) →
  NoDup (pairs_of ty batch targets).
Proof.
  intros Hb Ht. unfold pairs_of.
  destruct (String.eqb ty "movie").
  - apply (NoDup_cross targets batch (λ m u, (wrap32 u, wrap32 m))); auto.
    by intros a b a' b' [= H1 H2].
  - apply (NoDup_cross targets batch (λ u m, (wrap32 u, wrap32 m))); auto.
    by intros a b a' b' [= H1 H2].
Qed.

Lemma NoDup_filter_lookup {A} (P : A → Prop) `{∀ x, Decision (P x)}
    (l : list A) :
  (∀ j j' x, l !! j = Some x → P x → l !! j' = Some x → j = j') →
  NoDup (filter P l).
Proof.
  induction l as [|a l IH]; intros Hl; [constructor|].
  assert (NoDup (filter P l)) as Hnd.
  { apply IH. intros j j' x Hj HP Hj'.
    assert (S j = S j') by (by apply (Hl (S j) (S j') x)). lia. }
  rewrite filter_cons. destruct (decide (P a)) as [Ha|]; [|done].
  apply NoDup_cons. split; [|done].
  intros [_ (k & Hk)%list_elem_of_lookup]%list_elem_of_filter.
  by specialize (Hl 0 (S k) a eq_refl Ha Hk).
Qed.

(** In the row of a source that is the only one of its batch with its
    value modulo 2^32, no value stands in two columns. *)
Lemma recommend_row_distinct {np} predict ty users movies maxsize tr items scores
    i j j' x :
  valid_type ty →
  recommend np predict ty users movies maxsize = (tr, inr (items, scores)) →
  let src := source_ids ty users movies in
  let tgt := target_ids ty users movies in
  NoDup (wrap32 <$> chunk src (i `div` batch_num)) →
  NoDup (wrap32 <$> tgt) →
  cell items i j = Some x → x ≠ NaN → cell items i j' = Some x → j = j'.
Proof.
  intros Hty Hrec src tgt Hb Ht Hx Hnan Hx'.
  destruct (recommend_inv _ _ _ _ _ _ _ Hty Hrec) as (_ & H1 & _).
  apply (f_equal fst) in H1. unfold shape in H1. cbn [fst snd] in H1.
  fold src in H1.
  assert (i < length src) as Hi.
  { apply cell_Some in Hx as (r & Hr%lookup_lt_Some & _). lia. }
  destruct (lookup_lt_is_Some_2 src i Hi) as [u Hu].
  destruct (recommend_row _ _ _ _ _ _ _ i u Hty Hrec Hu)
    as (s & _ & Hbu & Hr1 & _ & Hmz & Hf).
  fold src tgt in Hbu, Hf, Hmz. cbn [fst snd] in Hr1.
  set (b := chunk src (i `div` batch_num)) in *.
  set (mz := maxsize_or_default maxsize tgt) in *.
  set (df := scored predict (pairs_of ty b tgt)) in *.
  rewrite (cell_lift _ _ _ _ j Hr1) in Hx.
  rewrite (cell_lift _ _ _ _ j' Hr1) in Hx'.
  pose proof (filled_wf1 _ _ _ _ _ _ _ Hf) as Hwf.
  pose proof (filled_shape1 _ _ _ _ _ _ _ Hf) as Hsh.
  injection Hsh as Hn Hm.
  assert (∀ c, cell s.1 (i `mod` batch_num) c = Some x →
            ∃ t, t ∈ ranked_of (key_of ty) df mz ∧
                 index_mapping b !! key_of ty t.1 = Some (i `mod` batch_num) ∧
                 t.2 - 1 = c ∧ x = of_int (item_of ty t.1)) as Horigin.
  { intros c Hc. apply cell_lt in Hc as Hlt; [|done].
    destruct (filled_sound _ _ _ _ _ _ _ Hf (i `mod` batch_num) c)
      as [[Hs _]|(t & Ht' & Hk & Hc' & Hv & _)]; [lia|lia|congruence|].
    exists t. split_and!; auto. congruence. }
  destruct (Horigin _ Hx) as (t & Htr & Hk & Hj & Hv).
  destruct (Horigin _ Hx') as (t' & Htr' & Hk' & Hj' & Hv').
  pose proof (ranked_rank_pos _ _ _ _ Htr) as Hpos.
  pose proof (ranked_rank_pos _ _ _ _ Htr') as Hpos'.
  apply elem_of_ranked_of in Htr as (Hdf & Hrk & _).
  apply elem_of_ranked_of in Htr' as (Hdf' & Hrk' & _).
  apply index_mapping_lookup in Hk as [Hk _].
  apply index_mapping_lookup in Hk' as [Hk' _].
  assert (key_of ty t.1 = key_of ty t'.1) as Hkey by congruence.
  assert (item_of ty t.1 = item_of ty t'.1) as Hitem.
  { rewrite Hv in Hv'. unfold of_int in Hv'. injection Hv' as Hv'.
    done. }
  assert ((userId t.1, movieId t.1) = (userId t'.1, movieId t'.1)) as Hpair.
  { unfold key_of, item_of in Hkey, Hitem.
    destruct (String.eqb ty "movie"); congruence. }
  assert (Index t.1 = Index t'.1) as Hindex.
  { unfold df, scored in Hdf, Hdf'.
    apply elem_of_dropna in Hdf as [(_ & _ & Hp & _)%elem_of_table_of _].
    apply elem_of_dropna in Hdf' as [(_ & _ & Hp' & _)%elem_of_table_of _].
    pose proof (pairs_of_NoDup ty b tgt Hb Ht) as Hnd.
    rewrite NoDup_alt in Hnd. eapply Hnd; [exact Hp|]. by rewrite Hpair. }
  assert (t.1 = t'.1) as Heq.
  { eapply (NoDup_fmap_inj_on Index df); auto.
    apply dropna_index, table_of_index. }
  rewrite Heq in Hrk. lia.
Qed.

(** X12: no target is recommended twice to a source.  When the
    sources of a batch are pairwise distinct modulo 2^32 and so are the
    targets, the values in a row of the returned item matrix that
    belongs to the batch are pairwise distinct. *)
Theorem recommend_no_repeats np predict ty users movies maxsize tr items scores
    i r :
  valid_type ty →
  recommend np predict ty users movies maxsize = (tr, inr (items, scores)) →
  let src := source_ids ty users movies in
  let tgt := target_ids ty users movies in
  NoDup (wrap32 <$> chunk src (i `div` batch_num)) →
  NoDup (wrap32 <$> tgt) →
  rows items !! i = Some r →
  NoDup (filter (λ x, isnan x = false) r).
Proof.
  intros Hty Hrec src tgt Hb Ht Hr. apply NoDup_filter_lookup.
  intros j j' x Hj Hnan Hj'.
  apply (recommend_row_distinct (np:=np) predict ty users movies maxsize tr items
           scores i j j' x); auto.
  - unfold cell. by rewrite Hr.
  - by intros ->.
  - unfold cell. by rewrite Hr.
Qed.

Lemma recommend_no_repeats_witness :
  NoDup (filter (λ x, isnan x = false) [of_int 30; of_int 10; of_int 20]).
Proof.
  apply (recommend_no_repeats NumPy2 scenario_predict "movie" [1; 2]%Z
           [10; 20; 30]%Z None
           [Predict [(1, 10); (2, 10); (1, 20); (2, 20); (1, 30); (2, 30)]%Z;
            PbarUpdate 2]
           {| ncols := 3;
              rows := [[of_int 10; of_int 20; NaN];
                       [of_int 30; of_int 10; of_int 20]] |}
           {| ncols := 3;
              rows := [[frac 9 10; frac 5 10; NaN];
                       [frac 8 10; frac 1 10; frac 1 10]] |} 1).
  - left. reflexivity.
  - vm_compute. reflexivity.
  - apply (bool_decide_unpack _). vm_compute. reflexivity.
  - apply (bool_decide_unpack _). vm_compute. reflexivity.
  - reflexivity.
Defined.
